(** * go-hailo: detection post-processing and the C boundary of the Hailo wrapper

    A shallow embedding of [hailo_inference.cpp] (confidence filter, greedy
    class-scoped NMS, the [detect] call sequence) and of [hailo_c_api.cpp]
    (null-handle checks, exception-to-sentinel mapping, capacity-bounded copy),
    with the properties the specification states about them.

    Conventions of the model:
    - [float] is IEEE 754 binary32, round-to-nearest-even, each C++ operation
      rounded on its own (no fused multiply-add, no excess precision);
    - the output tensor is read in little-endian byte order;
    - [size_t] values are [N], [int] values are [Z]; an [int] that the code
      increments wraps as a two's-complement 32-bit integer;
    - HailoRT, [std::sort] and the result of an out-of-range float-to-int
      conversion are parameters of the development (type classes). *)

From Stdlib Require Import ZArith Lia String Ascii Strings.Byte DecimalString.
From Stdlib Require Import Floats.SpecFloat.
From stdpp Require Import base list sorting.

Local Open Scope Z_scope.

Abbreviation float := spec_float.

(** ** IEEE 754 binary32 *)

Module B32.

Definition prec : Z := 24.
Definition emax : Z := 128.

Definition zero : float := S754_zero false.

Definition add : float -> float -> float := SFadd prec emax.
Definition sub : float -> float -> float := SFsub prec emax.
Definition mul : float -> float -> float := SFmul prec emax.
Definition div : float -> float -> float := SFdiv prec emax.

(** C++ relational operators on floats: a comparison with a NaN is false. *)
Definition lt (a b : float) : bool := SFltb a b.
Definition le (a b : float) : bool := SFleb a b.
Definition gt (a b : float) : bool := SFltb b a.
Definition ge (a b : float) : bool := SFleb b a.

Definition is_nan (a : float) : bool :=
  match a with S754_nan => true | _ => false end.

Definition is_zero (a : float) : bool :=
  match a with S754_zero _ => true | _ => false end.

(** [std::max(a, b)] is [(a < b) ? b : a] and [std::min(a, b)] is
    [(b < a) ? b : a]: neither is symmetric on NaN or on signed zeros. *)
Definition max (a b : float) : float := if lt a b then b else a.
Definition min (a b : float) : float := if lt b a then b else a.

(** An integer, and a decimal literal [n/d], rounded to binary32. *)
Definition of_Z (z : Z) : float := binary_normalize prec emax z 0 false.
Definition lit (n d : Z) : float := div (of_Z n) (of_Z d).

(** The float stored in a 32-bit word: sign in bit 31, biased exponent in
    bits 23..30, fraction in bits 0..22. *)
Definition of_bits (w : Z) : float :=
  let s := Z.testbit w 31 in
  let e := Z.land (Z.shiftr w 23) 255 in
  let m := Z.land w (Z.ones 23) in
  if e =? 0 then
    match m with
    | Zpos p => S754_finite s p (-149)
    | _ => S754_zero s
    end
  else if e =? 255 then
    (if m =? 0 then S754_infinity s else S754_nan)
  else
    match Z.lor m (Z.shiftl 1 23) with
    | Zpos p => S754_finite s p (e - 150)
    | _ => S754_nan
    end.

(** The value of a finite float truncated toward zero. *)
Definition trunc (a : float) : option Z :=
  match a with
  | S754_zero _ => Some 0
  | S754_finite s m e =>
      let v := if 0 <=? e then Z.shiftl (Zpos m) e else Z.shiftr (Zpos m) (- e) in
      Some (if s then - v else v)
  | _ => None
  end.

(** Zero, a positive finite float or plus infinity. *)
Definition nonneg (x : float) : bool :=
  match x with
  | S754_zero false | S754_infinity false | S754_finite false _ _ => true
  | _ => false
  end.

(** Two floats that are equal, or are both zeros (of any sign). *)
Definition zeq (a b : float) : Prop :=
  a = b \/ (is_zero a = true /\ is_zero b = true).

End B32.

(** ** The C++ implementation and the vendor library, as interfaces *)

Definition int_min : Z := - 2 ^ 31.
Definition int_max : Z := 2 ^ 31 - 1.

(** Two's-complement wrap-around of a 32-bit [int]. *)
Definition int_wrap (z : Z) : Z := (z + 2 ^ 31) mod 2 ^ 32 - 2 ^ 31.

(** What the language leaves to the implementation: the order [std::sort]
    gives to equivalent elements, and the [int] a float converts to when its
    truncated value does not fit (NaN and infinities included). *)
Class CxxImpl := {
  std_sort : forall A : Type, (A -> A -> bool) -> list A -> list A;
  cast_undefined : float -> Z;
}.
Arguments std_sort {_ _} _ _.

(** The precondition of [std::sort]: [comp] is a strict weak ordering on the
    elements of the range. *)
Definition strict_weak_on {A : Type} (comp : A -> A -> bool) (l : list A) : Prop :=
  (forall x, x ∈ l -> comp x x = false) /\
  (forall x y z, x ∈ l -> y ∈ l -> z ∈ l ->
     comp x y = true -> comp y z = true -> comp x z = true) /\
  (forall x y z, x ∈ l -> y ∈ l -> z ∈ l ->
     comp x y = false -> comp y x = false ->
     comp y z = false -> comp z y = false ->
     comp x z = false /\ comp z x = false).

(** The postcondition of [std::sort]: a permutation of the range in which no
    element is ordered before an earlier one. *)
Class StdSortContract `{CxxImpl} : Prop :=
  std_sort_spec : forall (A : Type) (comp : A -> A -> bool) (l : list A),
    strict_weak_on comp l ->
    l ≡ₚ std_sort comp l /\
    StronglySorted (fun a b => comp b a = false) (std_sort comp l).

(** [static_cast<int>(float)]. *)
Definition float_to_int `{CxxImpl} (a : float) : Z :=
  match B32.trunc a with
  | Some v => if (int_min <=? v) && (v <=? int_max) then v else cast_undefined a
  | None => cast_undefined a
  end.

(** [hailo_status], an enumeration; [HAILO_SUCCESS] is 0. *)
Definition hailo_status := Z.
Definition HAILO_SUCCESS : hailo_status := 0.

(** [hailort::MemoryView]: a pointer (here the bytes it points to) and a size. *)
Record MemoryView := {
  mv_data : list byte;
  mv_size : N;
}.

(** The part of HailoRT that [detect] calls.  [run] returns the status, the
    state of the configured model afterwards and the bytes the device left in
    the bound output buffer. *)
Class HailoRT := {
  VDevice : Type;
  InferModel : Type;
  ConfiguredInferModel : Type;
  Bindings : Type;
  input_set_buffer : Bindings -> MemoryView -> hailo_status * Bindings;
  output_set_buffer : Bindings -> MemoryView -> hailo_status * Bindings;
  run : ConfiguredInferModel -> Bindings -> Z ->
        hailo_status * ConfiguredInferModel * list byte;
}.

(** [std::to_string] on a [size_t] and on an [int]. *)
Definition to_string_size_t (n : N) : string := NilEmpty.string_of_uint (N.to_uint n).
Definition to_string_int (z : Z) : string := NilZero.string_of_int (Z.to_int z).

(** [hailort::Expected<T>]: the value, or the status of the failure. *)
Definition Expected (T : Type) : Type := (hailo_status + T)%type.

(** [hailo_3d_image_shape_t]: three [uint32_t] fields. *)
Record hailo_3d_image_shape_t := {
  shape_height : N;
  shape_width : N;
  shape_features : N;
}.

(** The part of HailoRT that [HailoInference::create] calls.  The calls are
    taken as functions of the objects they are made on; what they do to the
    device is outside the model. *)
Class HailoRTModel `{HailoRT} := {
  InferStream : Type;
  vdevice_create : Expected VDevice;
  create_infer_model : VDevice -> string -> Expected InferModel;
  configure : InferModel -> Expected ConfiguredInferModel;
  create_bindings : ConfiguredInferModel -> Expected Bindings;
  infer_model_input : InferModel -> Expected InferStream;
  infer_model_output : InferModel -> Expected InferStream;
  shape : InferStream -> hailo_3d_image_shape_t;
  get_frame_size : InferStream -> N;
}.

(** A [uint32_t] stored into an [int]. *)
Definition int_of_uint32 (n : N) : Z := int_wrap (Z.of_N n).

(** ** namespace hailo_wrapper (hailo_inference.hpp, hailo_inference.cpp) *)

Module hailo_wrapper.

Record Detection := {
  x_min : float;
  y_min : float;
  x_max : float;
  y_max : float;
  confidence : float;
  class_id : Z;
}.

Record InputInfo := {
  width : Z;
  height : Z;
  channels : Z;
  frame_size : N;
}.

(** Default member initialisers [0.5f] and [0.45f]; nothing assigns them. *)
Definition m_confidence_threshold : float := S754_finite false 8388608 (-24).
Definition m_nms_threshold : float := S754_finite false 15099494 (-25).

(** Helper: intersection over union for NMS. *)
Definition iou (a b : Detection) : float :=
  let x1 := B32.max (x_min a) (x_min b) in
  let y1 := B32.max (y_min a) (y_min b) in
  let x2 := B32.min (x_max a) (x_max b) in
  let y2 := B32.min (y_max a) (y_max b) in
  let intersection :=
    B32.mul (B32.max B32.zero (B32.sub x2 x1)) (B32.max B32.zero (B32.sub y2 y1)) in
  let area_a := B32.mul (B32.sub (x_max a) (x_min a)) (B32.sub (y_max a) (y_min a)) in
  let area_b := B32.mul (B32.sub (x_max b) (x_min b)) (B32.sub (y_max b) (y_min b)) in
  let union_area := B32.sub (B32.add area_a area_b) intersection in
  if B32.gt union_area B32.zero then B32.div intersection union_area else B32.zero.

(** The local variables of [iou], named for the proofs. *)
Definition area (d : Detection) : float :=
  B32.mul (B32.sub (x_max d) (x_min d)) (B32.sub (y_max d) (y_min d)).

Definition intersection (a b : Detection) : float :=
  B32.mul
    (B32.max B32.zero
       (B32.sub (B32.min (x_max a) (x_max b)) (B32.max (x_min a) (x_min b))))
    (B32.max B32.zero
       (B32.sub (B32.min (y_max a) (y_max b)) (B32.max (y_min a) (y_min b)))).

Definition union_area (a b : Detection) : float :=
  B32.sub (B32.add (area a) (area b)) (intersection a b).

(** Some coordinate of the box is a NaN. *)
Definition has_nan (d : Detection) : bool :=
  B32.is_nan (x_min d) || B32.is_nan (y_min d)
  || B32.is_nan (x_max d) || B32.is_nan (y_max d).

(** [output[k]] as an integer; [data[k]] after the [reinterpret_cast] to
    [const float*]. *)
Definition byte_at (output : list byte) (k : nat) : Z :=
  Z.of_N (Byte.to_N (default x00 (output !! k))).

Definition float_at (output : list byte) (k : nat) : float :=
  B32.of_bits (byte_at output (4 * k)
               + Z.shiftl (byte_at output (4 * k + 1)) 8
               + Z.shiftl (byte_at output (4 * k + 2)) 16
               + Z.shiftl (byte_at output (4 * k + 3)) 24).

Definition detection_size : nat := 6.

Definition num_detections (output : list byte) : nat :=
  ((length output / 4) / detection_size)%nat.

Section PostProcessing.
Context `{!CxxImpl}.

(** The body of the decoding loop up to the confidence test: record [i]. *)
Definition read_detection (output : list byte) (i : nat) : Detection :=
  let offset := (i * detection_size)%nat in
  {| x_min := float_at output (offset + 0);
     y_min := float_at output (offset + 1);
     x_max := float_at output (offset + 2);
     y_max := float_at output (offset + 3);
     confidence := float_at output (offset + 4);
     class_id := float_to_int (float_at output (offset + 5)) |}.

(** The first loop of [parseDetections]: decode and filter by confidence. *)
Definition parse_loop (output : list byte) : list Detection :=
  fold_left
    (fun detections i =>
       let det := read_detection output i in
       if B32.ge (confidence det) m_confidence_threshold
       then detections ++ [det]
       else detections)
    (seq 0 (num_detections output)) [].

(** The comparator handed to [std::sort]. *)
Definition by_confidence (a b : Detection) : bool :=
  B32.gt (confidence a) (confidence b).

(** The body of the inner loop of NMS, at index [j].  An index outside the
    vector is never read; the model leaves the flags as they are there. *)
Definition nms_inner_body (detections : list Detection) (i : nat)
    (suppressed : list bool) (j : nat) : list bool :=
  if default false (suppressed !! j) then suppressed
  else
    match detections !! i, detections !! j with
    | Some di, Some dj =>
        if (class_id di =? class_id dj) && B32.gt (iou di dj) m_nms_threshold
        then <[j := true]> suppressed
        else suppressed
    | _, _ => suppressed
    end.

(** The inner loop: [j] from [i + 1] up to [detections.size()]. *)
Definition nms_inner (detections : list Detection) (i : nat)
    (suppressed : list bool) : list bool :=
  fold_left (nms_inner_body detections i)
    (seq (S i) (length detections - S i)) suppressed.

(** The body of the outer loop, on the pair ([nms_detections], [suppressed]). *)
Definition nms_outer_body (detections : list Detection)
    (st : list Detection * list bool) (i : nat) : list Detection * list bool :=
  let '(nms_detections, suppressed) := st in
  if default false (suppressed !! i) then st
  else
    match detections !! i with
    | Some di => (nms_detections ++ [di], nms_inner detections i suppressed)
    | None => st
    end.

(** The outer loop: [i] from 0 up to [detections.size()]. *)
Definition nms_outer (detections : list Detection) : list Detection * list bool :=
  fold_left (nms_outer_body detections)
    (seq 0 (length detections))
    ([], replicate (length detections) false).

Definition parseDetections (output : list byte) : list Detection :=
  let detections := parse_loop output in
  let detections := std_sort by_confidence detections in
  fst (nms_outer detections).

End PostProcessing.

(** *** What the loops compute, on lists *)

(** All records of the buffer, before the confidence filter. *)
Definition decode `{!CxxImpl} (output : list byte) : list Detection :=
  map (read_detection output) (seq 0 (num_detections output)).

Definition keeps (det : Detection) : bool :=
  B32.ge (confidence det) m_confidence_threshold.

(** [d] suppresses a later [e]: same class and IoU above the threshold. *)
Definition suppresses (d e : Detection) : bool :=
  (class_id d =? class_id e) && B32.gt (iou d e) m_nms_threshold.

(** Greedy suppression with the detections emitted so far as accumulator. *)
Fixpoint nms_from (emitted l : list Detection) : list Detection :=
  match l with
  | [] => []
  | d :: l' =>
      if existsb (fun k => suppresses k d) emitted then nms_from emitted l'
      else d :: nms_from (emitted ++ [d]) l'
  end.

(** No detection emitted so far suppresses [e]. *)
Definition unsuppressed (emitted : list Detection) (e : Detection) : bool :=
  negb (existsb (fun k => suppresses k e) emitted).

(** The invariant of the outer loop: from index [from] on, flag [j] tells
    whether a detection emitted so far suppresses [detections[j]]. *)
Definition flags_agree (detections emitted : list Detection) (from : nat)
    (suppressed : list bool) : Prop :=
  length suppressed = length detections /\
  forall j dj, (from <= j)%nat -> detections !! j = Some dj ->
    suppressed !! j = Some (existsb (fun k => suppresses k dj) emitted).

(** Greedy suppression as the specification words it: emit the head, drop
    every later detection it suppresses, go on with the rest. *)
Fixpoint greedy_nms_fuel (fuel : nat) (l : list Detection) : list Detection :=
  match fuel, l with
  | S fuel', d :: rest =>
      d :: greedy_nms_fuel fuel' (List.filter (fun e => negb (suppresses d e)) rest)
  | _, _ => []
  end.

Definition greedy_nms (l : list Detection) : list Detection :=
  greedy_nms_fuel (length l) l.

(** *** The inference session *)

Section Session.
Context `{!CxxImpl} `{!HailoRT}.

Record HailoInference := {
  m_vdevice : VDevice;
  m_infer_model : InferModel;
  m_configured_model : ConfiguredInferModel;
  m_bindings : Bindings;
  m_input_info : InputInfo;
  m_output_size : N;
}.

Definition set_bindings (self : HailoInference) (b : Bindings) : HailoInference :=
  {| m_vdevice := m_vdevice self;
     m_infer_model := m_infer_model self;
     m_configured_model := m_configured_model self;
     m_bindings := b;
     m_input_info := m_input_info self;
     m_output_size := m_output_size self |}.

Definition set_configured_model (self : HailoInference) (c : ConfiguredInferModel)
    : HailoInference :=
  {| m_vdevice := m_vdevice self;
     m_infer_model := m_infer_model self;
     m_configured_model := c;
     m_bindings := m_bindings self;
     m_input_info := m_input_info self;
     m_output_size := m_output_size self |}.

(** [std::runtime_error] with its [what()]. *)
Inductive exn := runtime_error (what : string).

Definition what (e : exn) : string := match e with runtime_error s => s end.

(** A member function of [HailoInference]: it reads and updates [*this] and
    either returns or throws. *)
Definition M (A : Type) : Type := HailoInference -> (exn + A) * HailoInference.

Definition ret {A} (a : A) : M A := fun self => (inr a, self).
Definition throw {A} (e : exn) : M A := fun self => (inl e, self).
Definition bind {A B} (m : M A) (k : A -> M B) : M B :=
  fun self =>
    match m self with
    | (inl e, self') => (inl e, self')
    | (inr a, self') => k a self'
    end.
Definition this : M HailoInference := fun self => (inr self, self).
Definition assign (self' : HailoInference) : M unit := fun _ => (inr tt, self').

Notation "'let!' x ':=' m 'in' k" := (bind m (fun x => k))
  (at level 10, x name, m at level 100, k at level 200).
Notation "'do!' m 'in' k" := (bind m (fun _ => k))
  (at level 10, m at level 100, k at level 200).

Definition getInputInfo (self : HailoInference) : InputInfo := m_input_info self.

(** The device writes into the storage of [output_buffer]; the vector keeps
    its size. *)
Definition written_over (written buffer : list byte) : list byte :=
  take (length buffer) written ++ drop (length written) buffer.

Definition detect (input_data : list byte) (input_size : N) : M (list Detection) :=
  let! self := this in
  if negb (input_size =? frame_size (m_input_info self))%N then
    throw (runtime_error ("Input size mismatch: expected "
             ++ to_string_size_t (frame_size (m_input_info self))
             ++ ", got " ++ to_string_size_t input_size))
  else
    (* Set input buffer *)
    let '(status, b) :=
      input_set_buffer (m_bindings self)
        {| mv_data := input_data; mv_size := input_size |} in
    do! assign (set_bindings self b) in
    if negb (status =? HAILO_SUCCESS) then
      throw (runtime_error "Failed to set input buffer")
    else
      (* Allocate output buffer *)
      let! self := this in
      let output_buffer := replicate (N.to_nat (m_output_size self)) x00 in
      let '(status, b) :=
        output_set_buffer (m_bindings self)
          {| mv_data := output_buffer; mv_size := m_output_size self |} in
      do! assign (set_bindings self b) in
      if negb (status =? HAILO_SUCCESS) then
        throw (runtime_error "Failed to set output buffer")
      else
        (* Run inference (with default timeout of 10 seconds) *)
        let! self := this in
        let '(status, c, written) :=
          run (m_configured_model self) (m_bindings self) 10000 in
        do! assign (set_configured_model self c) in
        let output_buffer := written_over written output_buffer in
        if negb (status =? HAILO_SUCCESS) then
          throw (runtime_error ("Inference failed: " ++ to_string_int status))
        else
          (* Parse and return detections *)
          ret (parseDetections output_buffer).

(** The buffer [detect] hands to [parseDetections] once the three HailoRT
    calls have succeeded: the raw output of the model for this input. *)
Definition raw_output (input_data : list byte) (input_size : N)
    (self : HailoInference) : list byte :=
  let b :=
    snd (input_set_buffer (m_bindings self)
           {| mv_data := input_data; mv_size := input_size |}) in
  let output_buffer := replicate (N.to_nat (m_output_size self)) x00 in
  let b :=
    snd (output_set_buffer b
           {| mv_data := output_buffer; mv_size := m_output_size self |}) in
  let written := snd (run (m_configured_model self) b 10000) in
  written_over written output_buffer.

(** COCO class 0 is "person". *)
Definition is_person (d : Detection) : bool := class_id d =? 0.

(** The counting loop of [detectPeople]. *)
Definition count_people (detections : list Detection) : Z :=
  fold_left
    (fun count det =>
       (* COCO class 0 is "person" *)
       if (class_id det =? 0) && B32.ge (confidence det) m_confidence_threshold
       then int_wrap (count + 1)
       else count)
    detections 0.

Definition detectPeople (input_data : list byte) (input_size : N) : M Z :=
  let! detections := detect input_data input_size in
  ret (count_people detections).

(** The three HailoRT calls of [detect], in the order it makes them, each
    on the bindings the one before left. *)
Definition input_binding (input_data : list byte) (input_size : N)
    (self : HailoInference) : hailo_status * Bindings :=
  input_set_buffer (m_bindings self)
    {| mv_data := input_data; mv_size := input_size |}.

Definition output_binding (input_data : list byte) (input_size : N)
    (self : HailoInference) : hailo_status * Bindings :=
  output_set_buffer (snd (input_binding input_data input_size self))
    {| mv_data := replicate (N.to_nat (m_output_size self)) x00;
       mv_size := m_output_size self |}.

Definition inference (input_data : list byte) (input_size : N)
    (self : HailoInference) : hailo_status * ConfiguredInferModel * list byte :=
  run (m_configured_model self)
    (snd (output_binding input_data input_size self)) 10000.

End Session.

Section Creation.
Context `{!CxxImpl} `{!HailoRT} `{!HailoRTModel}.

(** [if (!e) throw std::runtime_error(msg + std::to_string(status))], then
    go on with the value. *)
Definition or_throw {T A : Type} (msg : string) (e : Expected T)
    (k : T -> exn + A) : exn + A :=
  match e with
  | inl status => inl (runtime_error (msg ++ to_string_int status))
  | inr v => k v
  end.

(** [HailoInference::create].  The engine under construction is local: when
    a step throws it is destroyed and only the exception leaves. *)
Definition create (hef_path : string) : exn + HailoInference :=
  (* Create virtual device (auto-discovers Hailo hardware) *)
  or_throw "Failed to create VDevice: " vdevice_create (fun vdevice =>
  (* Create InferModel from HEF *)
  or_throw "Failed to create InferModel: " (create_infer_model vdevice hef_path)
    (fun infer_model =>
  (* Configure the model *)
  or_throw "Failed to configure model: " (configure infer_model) (fun configured =>
  (* Create bindings *)
  or_throw "Failed to create bindings: " (create_bindings configured) (fun bindings =>
  (* Get input info *)
  or_throw "Failed to get input stream: " (infer_model_input infer_model) (fun input =>
  let shape := shape input in
  let input_info :=
    {| height := int_of_uint32 (shape_height shape);
       width := int_of_uint32 (shape_width shape);
       channels := int_of_uint32 (shape_features shape);
       frame_size := get_frame_size input |} in
  (* Get output size *)
  or_throw "Failed to get output stream: " (infer_model_output infer_model)
    (fun output =>
  inr {| m_vdevice := vdevice;
         m_infer_model := infer_model;
         m_configured_model := configured;
         m_bindings := bindings;
         m_input_info := input_info;
         m_output_size := get_frame_size output |})))))).

End Creation.

End hailo_wrapper.

(** ** extern "C" (hailo_c_api.h, hailo_c_api.cpp) *)

Record hailo_input_info_t := {
  width : Z;
  height : Z;
  channels : Z;
  frame_size : N;
}.

Record hailo_wrapper_detection_t := {
  x_min : float;
  y_min : float;
  x_max : float;
  y_max : float;
  confidence : float;
  class_id : Z;
}.

(** The six field assignments of the copy loop. *)
Definition to_c_detection (det : hailo_wrapper.Detection) : hailo_wrapper_detection_t :=
  {| x_min := hailo_wrapper.x_min det;
     y_min := hailo_wrapper.y_min det;
     x_max := hailo_wrapper.x_max det;
     y_max := hailo_wrapper.y_max det;
     confidence := hailo_wrapper.confidence det;
     class_id := hailo_wrapper.class_id det |}.

(** The copy loop of [hailo_detect].  [detections[count]] is written in
    place; the caller's array is at least [max_detections] long by contract,
    and the model leaves the array as it is for an index outside it. *)
Fixpoint copy_loop (cpp_detections : list hailo_wrapper.Detection)
    (max_detections : Z) (count : Z) (detections : list hailo_wrapper_detection_t)
    : Z * list hailo_wrapper_detection_t :=
  match cpp_detections with
  | [] => (count, detections)
  | det :: rest =>
      if count >=? max_detections then (count, detections)
      else copy_loop rest max_detections (int_wrap (count + 1))
             (<[Z.to_nat count := to_c_detection det]> detections)
  end.

Section CApi.
Context `{!CxxImpl} `{!HailoRT}.

(** [hailo_inference_t*]: null, or the address of a live engine, which the
    model identifies with the engine's state. *)
Definition handle : Type := option hailo_wrapper.HailoInference.

(** What a boundary call leaves behind: the value it returns, the engine
    behind the handle and the calling thread's [g_last_error]. *)
Record outcome (A : Type) := {
  returned : A;
  engine : handle;
  last_error : string;
}.
Arguments returned {A} _.
Arguments engine {A} _.
Arguments last_error {A} _.

Definition set_error (msg : string) : string := msg.

Definition hailo_get_last_error (g_last_error : string) : string := g_last_error.

Definition hailo_get_input_info (h : handle) (g_last_error : string)
    : outcome hailo_input_info_t :=
  let info := {| width := 0; height := 0; channels := 0; frame_size := 0%N |} in
  match h with
  | None =>
      {| returned := info; engine := h; last_error := set_error "Invalid handle" |}
  | Some engine =>
      let cpp_info := hailo_wrapper.getInputInfo engine in
      {| returned :=
           {| width := hailo_wrapper.width cpp_info;
              height := hailo_wrapper.height cpp_info;
              channels := hailo_wrapper.channels cpp_info;
              frame_size := hailo_wrapper.frame_size cpp_info |};
         engine := h; last_error := g_last_error |}
  end.

Definition hailo_detect_people (h : handle) (input_data : list byte)
    (input_size : N) (g_last_error : string) : outcome Z :=
  match h with
  | None =>
      {| returned := -1; engine := h; last_error := set_error "Invalid handle" |}
  | Some engine =>
      match hailo_wrapper.detectPeople input_data input_size engine with
      | (inr count, engine') =>
          {| returned := count; engine := Some engine'; last_error := g_last_error |}
      | (inl e, engine') =>
          {| returned := -1; engine := Some engine';
             last_error := set_error (hailo_wrapper.what e) |}
      end
  end.

(** [hailo_detect] also gives back the caller's array [detections] as the
    call leaves it. *)
Definition hailo_detect (h : handle) (input_data : list byte) (input_size : N)
    (detections : list hailo_wrapper_detection_t) (max_detections : Z)
    (g_last_error : string) : outcome Z * list hailo_wrapper_detection_t :=
  match h with
  | None =>
      ({| returned := -1; engine := h; last_error := set_error "Invalid handle" |},
       detections)
  | Some engine =>
      match hailo_wrapper.detect input_data input_size engine with
      | (inr cpp_detections, engine') =>
          let '(count, detections') :=
            copy_loop cpp_detections max_detections 0 detections in
          ({| returned := count; engine := Some engine';
              last_error := g_last_error |},
           detections')
      | (inl e, engine') =>
          ({| returned := -1; engine := Some engine';
              last_error := set_error (hailo_wrapper.what e) |},
           detections)
      end
  end.

End CApi.

Arguments returned {_ _} _.
Arguments engine {_ _} _.
Arguments last_error {_ _} _.

Section CApiCreate.
Context `{!CxxImpl} `{!HailoRT} `{!HailoRTModel}.

(** [hailo_create] gives the handle and the calling thread's
    [g_last_error] after the call. *)
Definition hailo_create (hef_path : string) (g_last_error : string)
    : handle * string :=
  match hailo_wrapper.create hef_path with
  | inr engine => (Some engine, g_last_error)
  | inl e => (None, set_error (hailo_wrapper.what e))
  end.

End CApiCreate.

(** ** A concrete implementation, to run the model on *)

Module Concrete.

(** A stable insertion sort stands for [std::sort]. *)
Fixpoint insert {A : Type} (comp : A -> A -> bool) (x : A) (l : list A) : list A :=
  match l with
  | [] => [x]
  | y :: l' => if comp x y then x :: l else y :: insert comp x l'
  end.

Definition insertion_sort {A : Type} (comp : A -> A -> bool) (l : list A) : list A :=
  foldr (insert comp) [] l.

(** An out-of-range conversion gives [INT_MIN], as [cvttss2si] does. *)
#[export] Instance impl : CxxImpl := {|
  std_sort := @insertion_sort;
  cast_undefined := fun _ => int_min;
|}.

(** A device whose state is the bytes it will produce: both [set_buffer]
    calls succeed and [run] fills the output buffer with them. *)
#[export] Instance device : HailoRT := {|
  VDevice := unit;
  InferModel := unit;
  ConfiguredInferModel := list byte;
  Bindings := unit;
  input_set_buffer := fun b _ => (HAILO_SUCCESS, b);
  output_set_buffer := fun b _ => (HAILO_SUCCESS, b);
  run := fun c _ _ => (HAILO_SUCCESS, c, c);
|}.

Definition byte_of_Z (z : Z) : byte :=
  default x00 (Byte.of_N (Z.to_N (z mod 256))).

(** The four bytes of a 32-bit word, least significant first. *)
Definition le32 (w : Z) : list byte :=
  [byte_of_Z w; byte_of_Z (Z.shiftr w 8); byte_of_Z (Z.shiftr w 16);
   byte_of_Z (Z.shiftr w 24)].

Definition buffer_of_words (ws : list Z) : list byte := concat (map le32 ws).

(** A session of a model with a 12-byte frame on a device that will
    produce [output]. *)
Definition session (output : list byte) : hailo_wrapper.HailoInference :=
  {| hailo_wrapper.m_vdevice := tt;
     hailo_wrapper.m_infer_model := tt;
     hailo_wrapper.m_configured_model := output;
     hailo_wrapper.m_bindings := tt;
     hailo_wrapper.m_input_info :=
       {| hailo_wrapper.width := 2; hailo_wrapper.height := 2;
          hailo_wrapper.channels := 3; hailo_wrapper.frame_size := 12 |};
     hailo_wrapper.m_output_size := N.of_nat (length output) |}.

Definition frame : list byte := replicate 12 x00.

(** The records (0,0,10,10,0.9,0), (1,1,9,9,0.8,0), (50,50,60,60,0.7,1). *)
Definition example_buffer : list byte :=
  buffer_of_words
    [0x00000000; 0x00000000; 0x41200000; 0x41200000; 0x3F666666; 0x00000000;
     0x3F800000; 0x3F800000; 0x41100000; 0x41100000; 0x3F4CCCCD; 0x00000000;
     0x42480000; 0x42480000; 0x42700000; 0x42700000; 0x3F333333; 0x3F800000].

(** Two boxes of class 0 that do not overlap: (0,0,10,10,0.9,0) and
    (50,50,60,60,0.7,0). *)
Definition disjoint_buffer : list byte :=
  buffer_of_words
    [0x00000000; 0x00000000; 0x41200000; 0x41200000; 0x3F666666; 0x00000000;
     0x42480000; 0x42480000; 0x42700000; 0x42700000; 0x3F333333; 0x00000000].

(** The same box twice, once as class 0 and once as class 1:
    (0,0,10,10,0.9,0) and (0,0,10,10,0.8,1). *)
Definition overlap_buffer : list byte :=
  buffer_of_words
    [0x00000000; 0x00000000; 0x41200000; 0x41200000; 0x3F666666; 0x00000000;
     0x00000000; 0x00000000; 0x41200000; 0x41200000; 0x3F4CCCCD; 0x3F800000].

(** A record below the confidence threshold between two above it:
    (0,0,10,10,0.9,0), (20,20,30,30,0.25,0), (50,50,60,60,0.7,1). *)
Definition low_buffer : list byte :=
  buffer_of_words
    [0x00000000; 0x00000000; 0x41200000; 0x41200000; 0x3F666666; 0x00000000;
     0x41A00000; 0x41A00000; 0x41F00000; 0x41F00000; 0x3E800000; 0x00000000;
     0x42480000; 0x42480000; 0x42700000; 0x42700000; 0x3F333333; 0x3F800000].

Definition det (x0 y0 x1 y1 c : float) (k : Z) : hailo_wrapper.Detection :=
  {| hailo_wrapper.x_min := x0; hailo_wrapper.y_min := y0;
     hailo_wrapper.x_max := x1; hailo_wrapper.y_max := y1;
     hailo_wrapper.confidence := c; hailo_wrapper.class_id := k |}.

Definition d1 := det (B32.of_Z 0) (B32.of_Z 0) (B32.of_Z 10) (B32.of_Z 10) (B32.lit 9 10) 0.
Definition d2 := det (B32.of_Z 1) (B32.of_Z 1) (B32.of_Z 9) (B32.of_Z 9) (B32.lit 8 10) 0.
Definition d3 := det (B32.of_Z 50) (B32.of_Z 50) (B32.of_Z 60) (B32.of_Z 60) (B32.lit 7 10) 1.

Definition d_twin := det (B32.of_Z 0) (B32.of_Z 0) (B32.of_Z 10) (B32.of_Z 10) (B32.lit 8 10) 1.
Definition d_low := det (B32.of_Z 20) (B32.of_Z 20) (B32.of_Z 30) (B32.of_Z 30) (B32.lit 1 4) 0.

(** An entry of the caller's array before the call. *)
Definition blank : hailo_wrapper_detection_t :=
  {| x_min := B32.zero; y_min := B32.zero; x_max := B32.zero; y_max := B32.zero;
     confidence := B32.zero; class_id := 0 |}.

(** A device whose three calls return the given statuses; [run] leaves
    [written] in the output buffer. *)
Definition device_with (s_in s_out s_run : hailo_status) (written : list byte)
    : HailoRT :=
  {| VDevice := unit;
     InferModel := unit;
     ConfiguredInferModel := nat;
     Bindings := nat;
     input_set_buffer := fun b _ => (s_in, S b);
     output_set_buffer := fun b _ => (s_out, S b);
     run := fun c _ _ => (s_run, S c, written) |}.

(** A session on such a device: nothing bound yet, no inference run yet. *)
Definition session_with (s_in s_out s_run : hailo_status) (written : list byte)
    : @hailo_wrapper.HailoInference (device_with s_in s_out s_run written) :=
  @hailo_wrapper.Build_HailoInference (device_with s_in s_out s_run written)
    tt tt 0%nat 0%nat
    {| hailo_wrapper.width := 2; hailo_wrapper.height := 2;
       hailo_wrapper.channels := 3; hailo_wrapper.frame_size := 12 |}
    72%N.

(** A model file that loads on [device]: a 2 x 2 x 3 input of 12 bytes and
    an output of 72 bytes, which will be [example_buffer]. *)
#[export] Instance model : @HailoRTModel device := {|
  InferStream := hailo_3d_image_shape_t * N;
  vdevice_create := inr tt;
  create_infer_model := fun _ _ => inr tt;
  configure := fun _ => inr example_buffer;
  create_bindings := fun _ => inr tt;
  infer_model_input := fun _ =>
    inr ({| shape_height := 2; shape_width := 2; shape_features := 3 |}, 12%N);
  infer_model_output := fun _ =>
    inr ({| shape_height := 1; shape_width := 3; shape_features := 6 |}, 72%N);
  shape := fst;
  get_frame_size := snd;
|}.

(** The same, except that [configure] fails with status 26. *)
Definition model_not_configured : @HailoRTModel device :=
  {| InferStream := hailo_3d_image_shape_t * N;
     vdevice_create := inr tt;
     create_infer_model := fun _ _ => inr tt;
     configure := fun _ => inl 26;
     create_bindings := fun _ => inr tt;
     infer_model_input := fun _ =>
       inr ({| shape_height := 2; shape_width := 2; shape_features := 3 |}, 12%N);
     infer_model_output := fun _ =>
       inr ({| shape_height := 1; shape_width := 3; shape_features := 6 |}, 72%N);
     shape := fst;
     get_frame_size := snd |}.

(** A box with a NaN corner that lies over [d1]: (NaN,0,10,10,0.8,0), and
    the buffer that holds [d1] and it. *)
Definition d_nan := det S754_nan (B32.of_Z 0) (B32.of_Z 10) (B32.of_Z 10) (B32.lit 8 10) 0.

(** One record whose class field holds 0.9f: (0,0,10,10,0.9,0.9). *)
Definition fraction_buffer : list byte :=
  buffer_of_words
    [0x00000000; 0x00000000; 0x41200000; 0x41200000; 0x3F666666; 0x3F666666].

Definition nan_buffer : list byte :=
  buffer_of_words
    [0x00000000; 0x00000000; 0x41200000; 0x41200000; 0x3F666666; 0x00000000;
     0x7FC00000; 0x00000000; 0x41200000; 0x41200000; 0x3F4CCCCD; 0x00000000].

End Concrete.

(** * Properties *)

(** ** Order and rounding facts on binary32 *)

Module B32Facts.
Import B32.

(** *** The order on floats

    [SFcompare] orders finite floats by sign, exponent and mantissa.  The
    facts below hold for every [spec_float]; they are proved by cases on the
    constructors and on the comparisons of exponents and mantissas. *)

Lemma compare_cont_eq m n : Pos.compare_cont Eq m n = (m ?= n)%positive.
Proof. reflexivity. Qed.

Ltac order_cases :=
  repeat match goal with
  | |- context [Z.compare ?a ?b] => destruct (Z.compare_spec a b); subst
  | H : context [Z.compare ?a ?b] |- _ => destruct (Z.compare_spec a b); subst
  | |- context [Pos.compare ?a ?b] => destruct (Pos.compare_spec a b); subst
  | H : context [Pos.compare ?a ?b] |- _ => destruct (Pos.compare_spec a b); subst
  end.

Ltac float_order :=
  unfold lt, le, gt, ge, SFltb, SFleb, SFeqb, SFcompare in *;
  repeat match goal with
  | a : spec_float |- _ => destruct a
  | s : bool |- _ => destruct s
  end;
  rewrite ?compare_cont_eq in *; simpl in *;
  try discriminate; try reflexivity; try tauto;
  order_cases; simpl in *; try discriminate; try reflexivity; try lia; try tauto.

Lemma lt_irrefl a : lt a a = false.
Proof. float_order. Qed.

Lemma lt_trans a b c : lt a b = true -> lt b c = true -> lt a c = true.
Proof. intros H1 H2. float_order. Qed.

Lemma lt_le_false a b : lt a b = true -> le b a = false.
Proof. intros H. float_order. Qed.


Lemma not_lt_le a b :
  is_nan a = false -> is_nan b = false -> lt a b = false -> le b a = true.
Proof. intros Ha Hb H. float_order. Qed.

Lemma le_not_nan_l a b : le a b = true -> is_nan a = false.
Proof. intros H. float_order. Qed.

Lemma le_not_nan_r a b : le a b = true -> is_nan b = false.
Proof. intros H. float_order. Qed.

Lemma le_trans a b c : le a b = true -> le b c = true -> le a c = true.
Proof. intros H1 H2. float_order. Qed.

Lemma incomparable_trans a b c :
  is_nan a = false -> is_nan b = false -> is_nan c = false ->
  lt a b = false -> lt b a = false -> lt b c = false -> lt c b = false ->
  lt a c = false /\ lt c a = false.
Proof. intros Ha Hb Hc H1 H2 H3 H4. split; float_order. Qed.

(** *** Rounding

    Rounding a non-negative integer mantissa gives a zero, a positive finite
    float or plus infinity, never a NaN. *)

Lemma iter_pos_invariant {A} (P : A -> Prop) (f : A -> A) :
  (forall x, P x -> P (f x)) -> forall n x, P x -> P (SpecFloat.iter_pos f n x).
Proof.
  intros Hf n. induction n as [n IH | n IH |]; intros x Hx; simpl; auto.
Qed.

Lemma shr_1_nonneg mrs : 0 <= shr_m mrs -> 0 <= shr_m (shr_1 mrs).
Proof.
  destruct mrs as [m r s]. simpl. intros Hm.
  destruct m as [| p | p]; simpl; try lia; destruct p; simpl; lia.
Qed.

Lemma shr_nonneg mrs e n : 0 <= shr_m mrs -> 0 <= shr_m (fst (shr mrs e n)).
Proof.
  intros Hm. unfold shr. destruct n; simpl; auto.
  apply (iter_pos_invariant (fun x => 0 <= shr_m x)); auto using shr_1_nonneg.
Qed.

Lemma shr_fexp_nonneg m e l :
  0 <= m -> 0 <= shr_m (fst (shr_fexp prec emax m e l)).
Proof.
  intros Hm. unfold shr_fexp. apply shr_nonneg.
  destruct l as [| []]; simpl; exact Hm.
Qed.

Lemma round_nearest_even_nonneg m l : 0 <= m -> 0 <= round_nearest_even m l.
Proof.
  intros Hm. unfold round_nearest_even.
  destruct l as [| []]; try lia. destruct (Z.even m); lia.
Qed.

Lemma binary_round_aux_nonneg m e l :
  0 <= m -> nonneg (binary_round_aux prec emax false m e l) = true.
Proof.
  intros Hm. unfold binary_round_aux.
  pose proof (shr_fexp_nonneg m e l Hm) as H1.
  destruct (shr_fexp prec emax m e l) as [mrs' e']. simpl in H1.
  pose proof (round_nearest_even_nonneg _ (loc_of_shr_record mrs') H1) as H2.
  pose proof (shr_fexp_nonneg _ e' loc_Exact H2) as H3.
  destruct (shr_fexp prec emax _ e' loc_Exact) as [mrs'' e'']. simpl in H3.
  destruct (shr_m mrs'') as [| p | p]; simpl; try reflexivity; try lia.
  destruct (e'' <=? emax - prec); reflexivity.
Qed.

Lemma div_core_nonneg mx ex my ey :
  0 <= fst (fst (SFdiv_core_binary prec emax (Zpos mx) ex (Zpos my) ey)).
Proof.
  unfold SFdiv_core_binary.
  set (s := _ - _ - Z.min _ _).
  set (m' := match s with Z0 => Zpos mx | Zpos _ => Z.shiftl (Zpos mx) s | Zneg _ => 0 end).
  assert (Hm' : 0 <= m').
  { unfold m'. destruct s; try lia. apply Z.shiftl_nonneg. lia. }
  pose proof (Z_div_mod m' (Zpos my) ltac:(lia)) as H.
  destruct (Z.div_eucl m' (Zpos my)) as [q r]. simpl. nia.
Qed.

Lemma max_zero_nonneg d : nonneg (max zero d) = true.
Proof.
  unfold max, lt, SFltb, zero. destruct d as [[]|[]| |[] m e]; reflexivity.
Qed.

Lemma mul_nonneg x y :
  nonneg x = true -> nonneg y = true ->
  is_nan (mul x y) = true \/ nonneg (mul x y) = true.
Proof.
  destruct x as [[]|[]| |[] mx ex], y as [[]|[]| |[] my ey];
    simpl; try discriminate; intros _ _; auto.
  right. apply binary_round_aux_nonneg. lia.
Qed.

Lemma nonneg_not_nan x : nonneg x = true -> is_nan x = false.
Proof. destruct x as [[]|[]| |[] m e]; simpl; congruence. Qed.

Lemma div_not_nan x y :
  nonneg x = true -> x <> S754_infinity false -> lt zero y = true ->
  is_nan (div x y) = false.
Proof.
  destruct x as [[]|[]| |[] mx ex], y as [[]|[]| |[] my ey];
    simpl; try discriminate; try congruence; intros _ _ _.
  unfold div, SFdiv.
  pose proof (div_core_nonneg mx ex my ey) as H.
  destruct (SFdiv_core_binary prec emax (Z.pos mx) ex (Z.pos my) ey) as [[mz ez] lz].
  simpl in H. apply nonneg_not_nan. simpl. apply binary_round_aux_nonneg, H.
Qed.

(** *** NaN, infinities and signed zeros through the operations *)

Lemma sub_nan_r x : sub x S754_nan = S754_nan.
Proof. destruct x; reflexivity. Qed.

Lemma sub_inf_not_pos x : lt zero (sub x (S754_infinity false)) = false.
Proof. destruct x as [[]|[]| |[] m e]; reflexivity. Qed.

Lemma add_comm x y : add x y = add y x.
Proof.
  destruct x as [[]|[]| |sx mx ex], y as [[]|[]| |sy my ey]; try reflexivity.
  unfold add, SFadd. rewrite (Z.min_comm ey ex). f_equal. apply Z.add_comm.
Qed.

Lemma sub_nan x y : is_nan x || is_nan y = true -> sub x y = S754_nan.
Proof. destruct x, y; simpl; try discriminate; reflexivity. Qed.

Lemma mul_nan x y : is_nan x || is_nan y = true -> mul x y = S754_nan.
Proof. destruct x, y; simpl; try discriminate; reflexivity. Qed.

Lemma add_nan x y : is_nan x || is_nan y = true -> add x y = S754_nan.
Proof. destruct x, y; simpl; try discriminate; reflexivity. Qed.

(** [std::max] and [std::min] commute up to the sign of a zero when no
    argument is a NaN, and subtraction and [max zero] do not see that sign. *)
Lemma max_comm_zeq a b :
  is_nan a = false -> is_nan b = false -> zeq (max a b) (max b a).
Proof.
  unfold zeq, max, lt, SFltb, SFcompare.
  destruct a as [[]|[]| |[] ma ea], b as [[]|[]| |[] mb eb];
    simpl; try discriminate; intros _ _; auto;
    change (Pos.compare_cont Eq ma mb) with (ma ?= mb)%positive;
    change (Pos.compare_cont Eq mb ma) with (mb ?= ma)%positive;
    destruct (Z.compare_spec ea eb), (Z.compare_spec eb ea); try lia; auto; subst;
    destruct (Pos.compare_spec ma mb), (Pos.compare_spec mb ma);
    try lia; subst; simpl; auto.
Qed.

Lemma min_comm_zeq a b :
  is_nan a = false -> is_nan b = false -> zeq (min a b) (min b a).
Proof.
  unfold zeq, min, lt, SFltb, SFcompare.
  destruct a as [[]|[]| |[] ma ea], b as [[]|[]| |[] mb eb];
    simpl; try discriminate; intros _ _; auto;
    change (Pos.compare_cont Eq ma mb) with (ma ?= mb)%positive;
    change (Pos.compare_cont Eq mb ma) with (mb ?= ma)%positive;
    destruct (Z.compare_spec ea eb), (Z.compare_spec eb ea); try lia; auto; subst;
    destruct (Pos.compare_spec ma mb), (Pos.compare_spec mb ma);
    try lia; subst; simpl; auto.
Qed.

Ltac zeq_solve :=
  unfold zeq; simpl; first [left; reflexivity | right; split; reflexivity].

Lemma sub_zeq a a' b b' : zeq a a' -> zeq b b' -> zeq (sub a b) (sub a' b').
Proof.
  intros [-> | [Ha Ha']] [-> | [Hb Hb']]; [left; reflexivity | | |].
  - destruct b as [[]| | |], b' as [[]| | |]; try discriminate;
      destruct a' as [[]|[]| |[] m e]; zeq_solve.
  - destruct a as [[]| | |], a' as [[]| | |]; try discriminate;
      destruct b' as [[]|[]| |[] m e]; zeq_solve.
  - destruct a as [[]| | |], a' as [[]| | |]; try discriminate;
      destruct b as [[]| | |], b' as [[]| | |]; try discriminate; zeq_solve.
Qed.

Lemma max_zero_zeq d d' : zeq d d' -> max zero d = max zero d'.
Proof.
  intros [-> | [H H']]; [reflexivity |].
  destruct d, d'; try discriminate. reflexivity.
Qed.

End B32Facts.

(** ** Intersection over union *)

Module IouFacts.
Import B32 B32Facts hailo_wrapper.

(** [iou] never returns a NaN: the quotient is taken only when the union is
    positive, and then the intersection is a zero or a positive finite
    float.  [iou] is symmetric: a NaN coordinate makes both orders 0, and
    without one the two orders differ at most in the sign of a zero. *)

Lemma iou_unfold a b :
  iou a b =
    let u := union_area a b in
    if gt u zero then div (intersection a b) u else zero.
Proof. reflexivity. Qed.


Lemma iou_not_nan a b : is_nan (iou a b) = false.
Proof.
  rewrite iou_unfold. cbv zeta. unfold union_area.
  destruct (gt _ zero) eqn:Hu; [| reflexivity].
  unfold gt in Hu. fold (lt zero (sub (add (area a) (area b)) (intersection a b))) in Hu.
  destruct (mul_nonneg _ _ (max_zero_nonneg (sub (min (x_max a) (x_max b)) (max (x_min a) (x_min b))))
              (max_zero_nonneg (sub (min (y_max a) (y_max b)) (max (y_min a) (y_min b)))))
    as [Hn | Hn]; fold (intersection a b) in Hn.
  - destruct (intersection a b); try discriminate.
    rewrite sub_nan_r in Hu. discriminate.
  - apply div_not_nan; auto.
    intros Hi. rewrite Hi, sub_inf_not_pos in Hu. discriminate.
Qed.

Lemma area_nan d : has_nan d = true -> area d = S754_nan.
Proof.
  unfold has_nan, area. intros H.
  destruct (is_nan (x_min d) || is_nan (x_max d)) eqn:Hx.
  - rewrite (sub_nan (x_max d) (x_min d)) by (rewrite orb_comm; exact Hx). reflexivity.
  - apply orb_false_elim in Hx as [Hx1 Hx2]. rewrite Hx1, Hx2 in H. simpl in H.
    rewrite orb_false_r in H.
    rewrite (sub_nan (y_max d) (y_min d)) by (rewrite orb_comm; exact H).
    apply mul_nan. apply orb_true_r.
Qed.

Lemma iou_nan_zero a b : has_nan a || has_nan b = true -> iou a b = zero.
Proof.
  intros H. rewrite iou_unfold. cbv zeta. unfold union_area.
  assert (Hs : add (area a) (area b) = S754_nan).
  { apply add_nan. apply orb_true_iff in H as [H | H]; rewrite (area_nan _ H); auto using orb_true_r. }
  rewrite Hs. reflexivity.
Qed.

Lemma intersection_comm a b :
  has_nan a = false -> has_nan b = false -> intersection a b = intersection b a.
Proof.
  unfold has_nan. intros Ha Hb.
  repeat (apply orb_false_elim in Ha as [Ha ?]).
  repeat (apply orb_false_elim in Hb as [Hb ?]).
  unfold intersection. f_equal; apply max_zero_zeq, sub_zeq;
    auto using max_comm_zeq, min_comm_zeq.
Qed.

Lemma iou_sym a b : iou a b = iou b a.
Proof.
  destruct (has_nan a || has_nan b) eqn:H.
  - rewrite (iou_nan_zero a b H). rewrite orb_comm in H.
    rewrite (iou_nan_zero b a H). reflexivity.
  - apply orb_false_elim in H as [Ha Hb].
    rewrite !iou_unfold. cbv zeta. unfold union_area.
    rewrite (intersection_comm a b Ha Hb), (add_comm (area a) (area b)). reflexivity.
Qed.

End IouFacts.

(** ** The loops of [parseDetections] *)

Module LoopFacts.
Import hailo_wrapper.

Section Loops.
Context `{!CxxImpl}.

Lemma fold_left_push {A B} (f : A -> B) (p : B -> bool) (l : list A) (acc : list B) :
  fold_left (fun acc i => if p (f i) then acc ++ [f i] else acc) l acc
  = acc ++ List.filter p (map f l).
Proof.
  revert acc. induction l as [| i l IH]; intros acc; simpl.
  - by rewrite app_nil_r.
  - rewrite IH. destruct (p (f i)); [| done]. by rewrite <- app_assoc.
Qed.

Lemma parse_loop_filter output :
  parse_loop output = List.filter keeps (decode output).
Proof.
  unfold parse_loop, decode.
  exact (fold_left_push (read_detection output) keeps _ []).
Qed.

(** The inner loop turns flag [j] into [flag || suppresses di dj] for the
    indices it visits and leaves the others alone. *)
Lemma nms_inner_from (detections : list Detection) i di k :
  detections !! i = Some di ->
  forall a (suppressed : list bool) j s dj,
    suppressed !! j = Some s -> detections !! j = Some dj ->
    fold_left (nms_inner_body detections i)
      (seq a k) suppressed !! j
    = Some (if decide (a <= j < a + k)%nat then s || suppresses di dj else s).
Proof.
  intros Hi. induction k as [| k IH]; intros a suppressed j s dj Hs Hj; simpl.
  - rewrite Hs. case_decide; [lia | done].
  - unfold nms_inner_body at 2. rewrite Hi.
    destruct (decide (j = a)) as [-> | Hne].
    + rewrite Hs, Hj. simpl.
      assert (Hlt : (a < length suppressed)%nat) by (eapply lookup_lt_Some; eauto).
      rewrite (decide_True (P := (a <= a < a + S k)%nat)) by lia.
      fold (suppresses di dj).
      destruct s; simpl.
      * erewrite IH by eauto. rewrite decide_False by lia. done.
      * destruct (suppresses di dj) eqn:Hsup.
        -- erewrite IH; [| by apply list_lookup_insert_eq | done].
           rewrite decide_False by lia. done.
        -- erewrite IH by eauto. rewrite decide_False by lia. done.
    + set (suppressed' := if default false (suppressed !! a) then suppressed else _).
      assert (Hs' : suppressed' !! j = Some s).
      { unfold suppressed'. destruct (default false (suppressed !! a)); [done |].
        destruct (detections !! a); [| done].
        destruct (_ && _); [| done]. by rewrite list_lookup_insert_ne. }
      erewrite IH by eauto.
      destruct (decide (S a <= j < S a + k)%nat), (decide (a <= j < a + S k)%nat);
        try done; lia.
Qed.

Lemma nms_inner_lookup (detections : list Detection) i di (suppressed : list bool) j s dj :
  detections !! i = Some di ->
  suppressed !! j = Some s -> detections !! j = Some dj ->
  nms_inner detections i suppressed !! j
  = Some (if decide (i < j)%nat then s || suppresses di dj else s).
Proof.
  intros Hi Hs Hj. unfold nms_inner.
  erewrite nms_inner_from by eauto.
  assert (j < length detections)%nat by (eapply lookup_lt_Some; eauto).
  destruct (decide (S i <= j < S i + (length detections - S i))%nat), (decide (i < j)%nat);
    try done; lia.
Qed.

Lemma nms_inner_length (detections : list Detection) i (suppressed : list bool) :
  length (nms_inner detections i suppressed) = length suppressed.
Proof.
  unfold nms_inner. generalize (seq (S i) (length detections - S i)) as js.
  intros js. revert suppressed. induction js as [| j js IH]; intros suppressed; simpl; [done |].
  rewrite IH. unfold nms_inner_body.
  destruct (default false (suppressed !! j)); [done |].
  destruct (detections !! i); [| done]. destruct (detections !! j); [| done].
  destruct (_ && _); [| done]. apply length_insert.
Qed.

Lemma nms_outer_from (detections : list Detection) k :
  forall i emitted suppressed,
    (i + k = length detections)%nat ->
    flags_agree detections emitted i suppressed ->
    fst (fold_left (nms_outer_body detections) (seq i k) (emitted, suppressed))
    = emitted ++ nms_from emitted (drop i detections).
Proof.
  induction k as [| k IH]; intros i emitted suppressed Hlen [Hl Hflags]; simpl.
  - rewrite drop_ge by lia. by rewrite app_nil_r.
  - destruct (lookup_lt_is_Some_2 detections i ltac:(lia)) as [di Hi].
    rewrite (drop_S _ _ _ Hi). simpl.
    rewrite Hi, (Hflags i di ltac:(lia) Hi). simpl.
    destruct (existsb _ emitted) eqn:Hex.
    + apply IH; [lia |]. split; [done |].
      intros j dj Hj. apply Hflags. lia.
    + rewrite IH; [by rewrite <- app_assoc | lia |].
      split; [by rewrite nms_inner_length |].
      intros j dj Hj Hdj.
      erewrite nms_inner_lookup; [| done | apply Hflags; [lia | done] | done].
      rewrite decide_True by lia.
      rewrite existsb_app. simpl. by rewrite orb_false_r.
Qed.

Lemma nms_outer_nms_from (detections : list Detection) :
  fst (nms_outer detections) = nms_from [] detections.
Proof.
  unfold nms_outer.
  rewrite (nms_outer_from detections (length detections) 0 [] _); [done | lia |].
  split; [apply length_replicate |].
  intros j dj _ Hj. simpl. apply lookup_replicate_2.
  eapply lookup_lt_Some; eauto.
Qed.

(** [nms_from] on lists: what it emits, and in which order. *)
Lemma nms_from_sublist emitted (l : list Detection) :
  nms_from emitted l `sublist_of` l.
Proof.
  revert emitted. induction l as [| d l IH]; intros emitted; simpl; [constructor |].
  destruct (existsb _ emitted); [apply sublist_cons | apply sublist_skip]; apply IH.
Qed.

Lemma nms_from_not_suppressed emitted (l : list Detection) k d :
  k ∈ emitted -> d ∈ nms_from emitted l -> suppresses k d = false.
Proof.
  revert emitted. induction l as [| e l IH]; intros emitted Hk Hd; simpl in Hd.
  - by apply elem_of_nil in Hd.
  - destruct (existsb _ emitted) eqn:Hex; [by eapply IH |].
    apply elem_of_cons in Hd as [-> | Hd].
    + destruct (suppresses k e) eqn:Hs; [| done].
      assert (existsb (fun k => suppresses k e) emitted = true); [| congruence].
      apply existsb_exists. exists k. split; [by apply list_elem_of_In | done].
    + eapply IH; [| done]. apply elem_of_app. by left.
Qed.

Lemma nms_from_pairwise emitted (l : list Detection) :
  StronglySorted (fun a b => suppresses a b = false) (nms_from emitted l).
Proof.
  revert emitted. induction l as [| e l IH]; intros emitted; simpl; [constructor |].
  destruct (existsb _ emitted); [apply IH |].
  constructor; [apply IH |].
  apply Forall_forall. intros d Hd.
  eapply nms_from_not_suppressed; [| done]. apply elem_of_app. right. by apply list_elem_of_singleton.
Qed.

Lemma filter_filter_bool {A} (p q : A -> bool) (l : list A) :
  List.filter p (List.filter q l) = List.filter (fun x => q x && p x) l.
Proof.
  induction l as [| x l IH]; simpl; [done |].
  destruct (q x); simpl; [| done]. destruct (p x); by rewrite IH.
Qed.

Lemma filter_length_le {A} (p : A -> bool) (l : list A) :
  (length (List.filter p l) <= length l)%nat.
Proof. induction l as [| x l IH]; simpl; [lia |]. destruct (p x); simpl; lia. Qed.

Lemma nms_from_greedy (l : list Detection) : forall emitted fuel,
  (length (List.filter (unsuppressed emitted) l) <= fuel)%nat ->
  nms_from emitted l = greedy_nms_fuel fuel (List.filter (unsuppressed emitted) l).
Proof.
  induction l as [| d l IH]; intros emitted fuel Hfuel; simpl.
  - by destruct fuel.
  - unfold unsuppressed at 1. simpl in Hfuel. unfold unsuppressed at 1 in Hfuel.
    destruct (existsb _ emitted) eqn:Hex; simpl in *; [by apply IH |].
    destruct fuel as [| fuel]; [lia |]. simpl. f_equal.
    rewrite filter_filter_bool.
    assert (Hext : forall e,
      unsuppressed emitted e && negb (suppresses d e) = unsuppressed (emitted ++ [d]) e).
    { intros e. unfold unsuppressed. rewrite existsb_app. simpl.
      rewrite orb_false_r. by rewrite negb_orb. }
    rewrite (List.filter_ext _ _ Hext).
    apply IH. rewrite <- (List.filter_ext _ _ Hext), <- filter_filter_bool.
    etrans; [apply filter_length_le | lia].
Qed.

Lemma nms_from_greedy_nms (l : list Detection) : nms_from [] l = greedy_nms l.
Proof.
  unfold greedy_nms.
  assert (Hid : List.filter (unsuppressed []) l = l).
  { induction l as [| d l IH]; simpl; [done |]. by rewrite IH. }
  rewrite <- Hid at 2 3. apply nms_from_greedy. by rewrite Hid.
Qed.

End Loops.
End LoopFacts.

(** ** Insertion sort meets the contract of [std::sort] *)

Module SortFacts.
Import Concrete.

Section Insertion.
Context {A : Type} (comp : A -> A -> bool).

Lemma insert_Permutation x (l : list A) : insert comp x l ≡ₚ x :: l.
Proof.
  induction l as [| y l IH]; simpl; [done |].
  destruct (comp x y); [done |]. rewrite IH. apply Permutation_swap.
Qed.

Lemma insertion_sort_Permutation (l : list A) : l ≡ₚ insertion_sort comp l.
Proof.
  induction l as [| x l IH]; simpl; [done |].
  rewrite insert_Permutation. by constructor.
Qed.

Lemma insert_sorted x (l dom : list A) :
  strict_weak_on comp dom -> x ∈ dom -> l ⊆ dom ->
  StronglySorted (fun a b => comp b a = false) l ->
  StronglySorted (fun a b => comp b a = false) (insert comp x l).
Proof.
  intros (Hirr & Htrans & _) Hx. induction l as [| y l IH]; intros Hl Hs; simpl.
  - repeat constructor.
  - apply StronglySorted_inv in Hs as [Hs Hy].
    assert (Hyd : y ∈ dom) by (apply Hl; left).
    assert (Hld : l ⊆ dom) by (intros z Hz; apply Hl; by right).
    destruct (comp x y) eqn:Hxy.
    + constructor; [by constructor |].
      constructor.
      * destruct (comp y x) eqn:Hyx; [| done].
        rewrite <- (Hirr x Hx). symmetry. by apply (Htrans x y x).
      * apply Forall_forall. intros z Hz.
        destruct (comp z x) eqn:Hzx; [| done].
        rewrite Forall_forall in Hy. rewrite <- (Hy z Hz). symmetry.
        apply (Htrans z x y); auto.
    + constructor; [by apply IH |].
      apply Forall_forall. intros z Hz.
      rewrite insert_Permutation in Hz.
      apply elem_of_cons in Hz as [-> | Hz]; [done |].
      rewrite Forall_forall in Hy. by apply Hy.
Qed.

Lemma insertion_sort_sorted (l dom : list A) :
  strict_weak_on comp dom -> l ⊆ dom ->
  StronglySorted (fun a b => comp b a = false) (insertion_sort comp l).
Proof.
  intros Hsw. induction l as [| x l IH]; intros Hl; simpl; [constructor |].
  apply (insert_sorted x _ dom); auto.
  - apply Hl. left.
  - intros z Hz. rewrite <- insertion_sort_Permutation in Hz. apply Hl. by right.
  - apply IH. intros z Hz. apply Hl. by right.
Qed.

End Insertion.

#[export] Instance contract : @StdSortContract impl.
Proof.
  intros A comp l Hsw. split.
  - apply insertion_sort_Permutation.
  - by apply (insertion_sort_sorted comp l l).
Qed.

End SortFacts.

(** ** Post-processing: filter, sort, suppress *)

Module PostFacts.
Import B32Facts IouFacts LoopFacts hailo_wrapper.

Lemma StronglySorted_sublist {A} (R : A -> A -> Prop) (l1 l2 : list A) :
  l1 `sublist_of` l2 -> StronglySorted R l2 -> StronglySorted R l1.
Proof.
  induction 1 as [| x l1 l2 Hsub IH | x l1 l2 Hsub IH]; intros Hs.
  - constructor.
  - apply StronglySorted_inv in Hs as [Hs Hx]. constructor; [by apply IH |].
    rewrite Forall_forall in Hx |- *. intros y Hy. apply Hx.
    by eapply elem_of_sublist.
  - apply StronglySorted_inv in Hs as [Hs _]. by apply IH.
Qed.


Lemma StronglySorted_impl {A} (R R' : A -> A -> Prop) (P : A -> Prop) (l : list A) :
  (forall a b, P a -> P b -> R a b -> R' a b) -> Forall P l ->
  StronglySorted R l -> StronglySorted R' l.
Proof.
  intros Himp Hp Hs. induction Hs as [| x l Hs IH Hx]; [constructor |].
  apply Forall_cons in Hp as [Hpx Hp]. constructor; [by apply IH |].
  rewrite Forall_forall in Hx, Hp |- *. intros y Hy. apply Himp; auto.
Qed.

Lemma keeps_not_nan d : keeps d = true -> B32.is_nan (confidence d) = false.
Proof. unfold keeps, B32.ge. apply le_not_nan_r. Qed.

Lemma by_confidence_strict_weak (l : list Detection) :
  Forall (fun d => keeps d = true) l -> strict_weak_on by_confidence l.
Proof.
  rewrite Forall_forall. intros Hk. unfold by_confidence, B32.gt. repeat split.
  - intros x _. apply lt_irrefl.
  - intros x y z _ _ _ Hxy Hyz. by eapply lt_trans.
  - eapply (incomparable_trans (confidence z) (confidence y) (confidence x));
      eauto using keeps_not_nan.
  - eapply (incomparable_trans (confidence x) (confidence y) (confidence z));
      eauto using keeps_not_nan.
Qed.

Lemma filter_keeps (l : list Detection) :
  Forall (fun d => keeps d = true) (List.filter keeps l).
Proof.
  apply Forall_forall. intros d Hd. apply list_elem_of_In, filter_In in Hd. tauto.
Qed.

Section Post.
Context `{!CxxImpl}.

(** [parseDetections] is greedy suppression over the sorted filtered records;
    this holds whatever [std::sort] does. *)
Lemma parseDetections_nms_from output :
  parseDetections output
  = nms_from [] (std_sort by_confidence (List.filter keeps (decode output))).
Proof.
  unfold parseDetections. cbv zeta.
  by rewrite nms_outer_nms_from, parse_loop_filter.
Qed.

Lemma parseDetections_pairwise output :
  StronglySorted (fun a b => suppresses a b = false) (parseDetections output).
Proof. rewrite parseDetections_nms_from. apply nms_from_pairwise. Qed.


Context `{!StdSortContract}.

Lemma sorted_Permutation output :
  List.filter keeps (decode output)
  ≡ₚ std_sort by_confidence (List.filter keeps (decode output)).
Proof. apply std_sort_spec, by_confidence_strict_weak, filter_keeps. Qed.

Lemma sorted_keeps output :
  Forall (fun d => keeps d = true)
    (std_sort by_confidence (List.filter keeps (decode output))).
Proof. rewrite <- sorted_Permutation. apply filter_keeps. Qed.

Lemma sorted_descending output :
  StronglySorted (fun a b => B32.ge (confidence a) (confidence b) = true)
    (std_sort by_confidence (List.filter keeps (decode output))).
Proof.
  eapply StronglySorted_impl; [| apply sorted_keeps |].
  2: apply std_sort_spec, by_confidence_strict_weak, filter_keeps.
  intros a b Ha Hb Hab. simpl in Hab. unfold by_confidence, B32.gt in Hab.
  unfold B32.ge. apply not_lt_le; auto using keeps_not_nan.
Qed.

Lemma parseDetections_sublist output :
  parseDetections output
  `sublist_of` std_sort by_confidence (List.filter keeps (decode output)).
Proof. rewrite parseDetections_nms_from. apply nms_from_sublist. Qed.

Lemma parseDetections_elem output d :
  d ∈ parseDetections output -> d ∈ decode output /\ keeps d = true.
Proof.
  intros Hd. pose proof (elem_of_sublist _ _ _ Hd (parseDetections_sublist output)) as Hs.
  rewrite <- sorted_Permutation in Hs.
  apply list_elem_of_In, filter_In in Hs as [Hs ?]. split; [| done].
  by apply list_elem_of_In.
Qed.

Lemma parseDetections_descending output :
  StronglySorted (fun a b => B32.ge (confidence a) (confidence b) = true)
    (parseDetections output).
Proof.
  eapply StronglySorted_sublist; [apply parseDetections_sublist | apply sorted_descending].
Qed.

End Post.
End PostFacts.

(** ** The session: [detect] and [detectPeople] *)

Module SessionFacts.
Import B32Facts PostFacts hailo_wrapper.

Section Session.
Context `{!CxxImpl} `{!HailoRT}.

Lemma written_over_length (written buffer : list byte) :
  length (written_over written buffer) = length buffer.
Proof.
  unfold written_over. rewrite length_app, length_take, length_drop. lia.
Qed.

Lemma detect_size_mismatch input_data input_size self :
  input_size <> frame_size (m_input_info self) ->
  detect input_data input_size self
  = (inl (runtime_error ("Input size mismatch: expected "
            ++ to_string_size_t (frame_size (m_input_info self))
            ++ ", got " ++ to_string_size_t input_size)), self).
Proof.
  intros Hne. unfold detect, bind, this, throw.
  apply N.eqb_neq in Hne. rewrite Hne. reflexivity.
Qed.

Lemma detect_returns_parsed input_data input_size self dets self' :
  detect input_data input_size self = (inr dets, self') ->
  input_size = frame_size (m_input_info self) /\
  length (raw_output input_data input_size self) = N.to_nat (m_output_size self) /\
  dets = parseDetections (raw_output input_data input_size self).
Proof.
  unfold detect, raw_output, bind, this, throw, assign, ret.
  destruct (input_size =? _)%N eqn:Hsz; simpl; [| discriminate].
  apply N.eqb_eq in Hsz.
  destruct (input_set_buffer _ _) as [st1 b1]. simpl.
  destruct (st1 =? HAILO_SUCCESS); simpl; [| discriminate].
  destruct (output_set_buffer _ _) as [st2 b2]. simpl.
  destruct (st2 =? HAILO_SUCCESS); simpl; [| discriminate].
  destruct (run _ _ _) as [[st3 c] written]. simpl.
  destruct (st3 =? HAILO_SUCCESS); simpl; [| discriminate].
  intros [= <- <-]. split; [done |]. split; [| done].
  by rewrite written_over_length, length_replicate.
Qed.

Lemma detectPeople_detect input_data input_size self :
  detectPeople input_data input_size self
  = match detect input_data input_size self with
    | (inr dets, self') => (inr (count_people dets), self')
    | (inl e, self') => (inl e, self')
    end.
Proof.
  unfold detectPeople, bind, ret.
  by destruct (detect input_data input_size self) as [[e | dets] self'].
Qed.

(** Counting with a wrapping [int] is counting, as long as the count fits. *)
Lemma count_people_from (dets : list Detection) : forall count,
  Forall (fun d => keeps d = true) dets ->
  0 <= count ->
  count + Z.of_nat (length (List.filter is_person dets)) <= int_max ->
  fold_left
    (fun count det =>
       if (class_id det =? 0) && B32.ge (confidence det) m_confidence_threshold
       then int_wrap (count + 1)
       else count)
    dets count
  = count + Z.of_nat (length (List.filter is_person dets)).
Proof.
  induction dets as [| d dets IH]; intros count Hk Hc Hfit; simpl in *; [lia |].
  apply Forall_cons in Hk as [Hd Hk].
  unfold keeps in Hd. rewrite Hd, andb_true_r. unfold is_person in Hfit at 1.
  unfold is_person at 1.
  destruct (class_id d =? 0); simpl in *.
  - rewrite IH; try done.
    + unfold int_wrap, int_max in *. rewrite Z.mod_small; lia.
    + unfold int_wrap, int_max in *. rewrite Z.mod_small; lia.
    + unfold int_wrap, int_max in *. rewrite Z.mod_small; lia.
  - by apply IH.
Qed.

End Session.
End SessionFacts.

(** ** The copy loop of [hailo_detect] *)

Module BoundaryFacts.

Lemma int_wrap_small z : int_min <= z <= int_max -> int_wrap z = z.
Proof. unfold int_wrap, int_min, int_max. intros H. rewrite Z.mod_small; lia. Qed.

Lemma copy_loop_nonpositive cpp_detections max_detections detections :
  max_detections <= 0 ->
  copy_loop cpp_detections max_detections 0 detections = (0, detections).
Proof.
  intros Hk. destruct cpp_detections as [| det rest]; simpl; [done |].
  destruct (0 >=? max_detections) eqn:H; [done | lia].
Qed.

Lemma copy_loop_from cpp_detections max_detections :
  forall (c n : nat) (detections : list hailo_wrapper_detection_t),
    n = Z.to_nat (Z.min (Z.of_nat (length cpp_detections))
                        (max_detections - Z.of_nat c)) ->
    Z.of_nat c <= max_detections <= int_max ->
    (c + n <= length detections)%nat ->
    copy_loop cpp_detections max_detections (Z.of_nat c) detections
    = (Z.of_nat (c + n),
       take c detections ++ map to_c_detection (take n cpp_detections)
         ++ drop (c + n) detections).
Proof.
  induction cpp_detections as [| det rest IH]; intros c n detections Hn Hk Hlen.
  - assert (n = 0%nat) as -> by (simpl in Hn; lia).
    rewrite Nat.add_0_r. simpl. by rewrite take_drop.
  - cbn [copy_loop]. destruct (Z.of_nat c >=? max_detections) eqn:Hge.
    + assert (n = 0%nat) as -> by lia.
      rewrite Nat.add_0_r. simpl. by rewrite take_drop.
    + cbn [length] in Hn.
      rewrite int_wrap_small by (unfold int_min, int_max in *; lia).
      replace (Z.of_nat c + 1) with (Z.of_nat (S c)) by lia.
      rewrite Nat2Z.id.
      destruct n as [| n']; [lia |].
      rewrite (IH (S c) n'); [| lia | lia | rewrite length_insert; lia].
      f_equal; [f_equal; lia |].
      rewrite (take_S_r _ c (to_c_detection det)).
      2: { apply list_lookup_insert_eq. lia. }
      rewrite take_insert_ge by lia.
      rewrite drop_insert_lt by lia.
      cbn [take map]. rewrite <- app_assoc. simpl.
      by replace (c + S n')%nat with (S (c + n'))%nat by lia.
Qed.

Lemma copy_loop_spec cpp_detections max_detections
    (detections : list hailo_wrapper_detection_t) :
  let n := Z.to_nat (Z.min (Z.of_nat (length cpp_detections)) max_detections) in
  0 <= max_detections <= int_max ->
  (n <= length detections)%nat ->
  copy_loop cpp_detections max_detections 0 detections
  = (Z.min (Z.of_nat (length cpp_detections)) max_detections,
     map to_c_detection (take n cpp_detections) ++ drop n detections).
Proof.
  intros n Hk Hlen.
  change (copy_loop cpp_detections max_detections 0 detections)
    with (copy_loop cpp_detections max_detections (Z.of_nat 0%nat) detections).
  rewrite (copy_loop_from cpp_detections max_detections 0 n detections);
    [| subst n; f_equal; lia | simpl; lia | simpl; lia].
  simpl. f_equal. lia.
Qed.

End BoundaryFacts.

(** ** The model on concrete values *)

Example confidence_threshold_literal :
  hailo_wrapper.m_confidence_threshold = B32.lit 1 2.
Proof. vm_compute. reflexivity. Qed.

Example nms_threshold_literal : hailo_wrapper.m_nms_threshold = B32.lit 45 100.
Proof. vm_compute. reflexivity. Qed.

Example of_bits_nine_tenths : B32.of_bits 0x3F666666 = B32.lit 9 10.
Proof. vm_compute. reflexivity. Qed.

Example of_bits_nan : B32.of_bits 0x7FC00000 = S754_nan.
Proof. vm_compute. reflexivity. Qed.

Example of_bits_minus_zero : B32.of_bits 0x80000000 = S754_zero true.
Proof. vm_compute. reflexivity. Qed.

Example max_not_symmetric :
  B32.max S754_nan (B32.of_Z 1) = S754_nan /\
  B32.max (B32.of_Z 1) S754_nan = B32.of_Z 1.
Proof. split; vm_compute; reflexivity. Qed.

Example example_buffer_decodes :
  @hailo_wrapper.decode Concrete.impl Concrete.example_buffer
  = [Concrete.d1; Concrete.d2; Concrete.d3].
Proof. vm_compute. reflexivity. Qed.

Example low_buffer_decodes :
  @hailo_wrapper.decode Concrete.impl Concrete.low_buffer
  = [Concrete.d1; Concrete.d_low; Concrete.d3].
Proof. vm_compute. reflexivity. Qed.

Example float_to_int_truncates :
  @float_to_int Concrete.impl (B32.lit 79 10) = 7 /\
  @float_to_int Concrete.impl (B32.lit (-79) 10) = -7.
Proof. split; vm_compute; reflexivity. Qed.

(** * The properties the specification states *)

Section Properties.
Context `{!CxxImpl} `{!HailoRT}.


Context `{!StdSortContract}.

(** C2 (confidence filter).  Every detection [parseDetections] returns, hence
    every detection a successful [detect] returns, has a confidence of at
    least the threshold 0.5f, and a decoded record whose confidence is below
    the threshold is not in the output. *)
Theorem confidence_filter_holds :
  (forall output d,
     d ∈ hailo_wrapper.parseDetections output ->
     B32.ge (hailo_wrapper.confidence d) hailo_wrapper.m_confidence_threshold = true) /\
  (forall output r,
     r ∈ hailo_wrapper.decode output ->
     B32.lt (hailo_wrapper.confidence r) hailo_wrapper.m_confidence_threshold = true ->
     r ∉ hailo_wrapper.parseDetections output) /\
  (forall input_data input_size self dets self' d,
     hailo_wrapper.detect input_data input_size self = (inr dets, self') ->
     d ∈ dets ->
     B32.ge (hailo_wrapper.confidence d) hailo_wrapper.m_confidence_threshold = true).
Proof.
  assert (Hparse : forall output d,
     d ∈ hailo_wrapper.parseDetections output ->
     B32.ge (hailo_wrapper.confidence d) hailo_wrapper.m_confidence_threshold = true).
  { intros output d Hd. by apply PostFacts.parseDetections_elem in Hd as [_ Hk]. }
  split; [exact Hparse |]. split.
  - intros output r _ Hlt Hin. apply Hparse in Hin.
    apply B32Facts.lt_le_false in Hlt. unfold B32.ge, B32.le in *. congruence.
  - intros input_data input_size self dets self' d Hd.
    apply SessionFacts.detect_returns_parsed in Hd as (_ & _ & ->).
    apply Hparse.
Qed.

(** C3 (size gate).  When the length passed differs from the session's
    [frame_size], [detect] throws the input-size error and returns no
    detections; the session is left exactly as it was, so no buffer was bound
    and no inference was run, and a later call behaves as it would have on
    the untouched session.  At the boundary the same call returns -1, records
    the message and leaves the caller's array and the engine alone. *)
Theorem detect_size_gate input_data input_size self :
  input_size <> hailo_wrapper.frame_size (hailo_wrapper.m_input_info self) ->
  let msg :=
    ("Input size mismatch: expected "
       ++ to_string_size_t (hailo_wrapper.frame_size (hailo_wrapper.m_input_info self))
       ++ ", got " ++ to_string_size_t input_size)%string in
  hailo_wrapper.detect input_data input_size self
    = (inl (hailo_wrapper.runtime_error msg), self) /\
  (forall input_data' input_size',
     hailo_wrapper.detect input_data' input_size'
       (snd (hailo_wrapper.detect input_data input_size self))
     = hailo_wrapper.detect input_data' input_size' self) /\
  (forall detections max_detections g_last_error,
     hailo_detect (Some self) input_data input_size detections max_detections
       g_last_error
     = ({| returned := -1; engine := Some self; last_error := msg |}, detections)).
Proof.
  intros Hne msg.
  pose proof (SessionFacts.detect_size_mismatch input_data input_size self Hne) as Hd.
  fold msg in Hd. split; [exact Hd |]. split.
  - intros input_data' input_size'. by rewrite Hd.
  - intros detections max_detections g_last_error.
    unfold hailo_detect. by rewrite Hd.
Qed.

(** C4 ([detectPeople] counts class 0).  When [detect] succeeds,
    [detectPeople] on the same input and session returns the number of
    detections of [detect]'s result whose [class_id] is 0, and leaves the
    session as [detect] does: the confidence test of the wrapper never fails
    on a detection [detect] returned.  The count is an [int]; the number
    counted is taken to fit one. *)
Theorem detectPeople_counts_class_zero input_data input_size self dets self' :
  hailo_wrapper.detect input_data input_size self = (inr dets, self') ->
  Z.of_nat (length (List.filter hailo_wrapper.is_person dets)) <= int_max ->
  hailo_wrapper.detectPeople input_data input_size self
  = (inr (Z.of_nat (length (List.filter hailo_wrapper.is_person dets))), self').
Proof.
  intros Hd Hfit. rewrite SessionFacts.detectPeople_detect, Hd.
  f_equal. f_equal. unfold hailo_wrapper.count_people.
  rewrite SessionFacts.count_people_from; [done | | done | lia].
  apply SessionFacts.detect_returns_parsed in Hd as (_ & _ & ->).
  apply Forall_forall. intros d Hin.
  by apply PostFacts.parseDetections_elem in Hin as [_ Hk].
Qed.

(** C5 (output order).  The sequence [parseDetections] returns, hence the
    one [detect] returns, is in non-increasing order of confidence; it is the
    greedy emission over the sorted list of the records that pass the filter,
    itself a permutation of them in non-increasing order of confidence; and
    it is a function of the decoded records alone. *)
Theorem detect_output_order :
  (forall output,
     StronglySorted
       (fun a b =>
          B32.ge (hailo_wrapper.confidence a) (hailo_wrapper.confidence b) = true)
       (hailo_wrapper.parseDetections output)) /\
  (forall output,
     let kept := List.filter hailo_wrapper.keeps (hailo_wrapper.decode output) in
     let sorted := std_sort hailo_wrapper.by_confidence kept in
     hailo_wrapper.parseDetections output = hailo_wrapper.greedy_nms sorted /\
     kept ≡ₚ sorted /\
     StronglySorted
       (fun a b =>
          B32.ge (hailo_wrapper.confidence a) (hailo_wrapper.confidence b) = true)
       sorted) /\
  (forall output output',
     hailo_wrapper.decode output = hailo_wrapper.decode output' ->
     hailo_wrapper.parseDetections output = hailo_wrapper.parseDetections output') /\
  (forall input_data input_size self dets self',
     hailo_wrapper.detect input_data input_size self = (inr dets, self') ->
     StronglySorted
       (fun a b =>
          B32.ge (hailo_wrapper.confidence a) (hailo_wrapper.confidence b) = true)
       dets).
Proof.
  split; [apply PostFacts.parseDetections_descending |]. split; [| split].
  - intros output kept sorted. split; [| split].
    + rewrite PostFacts.parseDetections_nms_from.
      apply LoopFacts.nms_from_greedy_nms.
    + apply PostFacts.sorted_Permutation.
    + apply PostFacts.sorted_descending.
  - intros output output' Heq.
    by rewrite !PostFacts.parseDetections_nms_from, Heq.
  - intros input_data input_size self dets self' Hd.
    apply SessionFacts.detect_returns_parsed in Hd as (_ & _ & ->).
    apply PostFacts.parseDetections_descending.
Qed.


(** C7 (NMS cross-class pass-through).  When the raw output decodes to
    exactly two records, both at or above the confidence threshold and of
    different classes, both are in the output of [parseDetections], hence of
    [detect], and nothing else is, whatever their IoU. *)
Theorem nms_cross_class_pass_through :
  (forall output r1 r2,
     hailo_wrapper.decode output = [r1; r2] ->
     B32.ge (hailo_wrapper.confidence r1) hailo_wrapper.m_confidence_threshold = true ->
     B32.ge (hailo_wrapper.confidence r2) hailo_wrapper.m_confidence_threshold = true ->
     hailo_wrapper.class_id r1 <> hailo_wrapper.class_id r2 ->
     r1 ∈ hailo_wrapper.parseDetections output /\
     r2 ∈ hailo_wrapper.parseDetections output /\
     length (hailo_wrapper.parseDetections output) = 2%nat) /\
  (forall input_data input_size self dets self' r1 r2,
     hailo_wrapper.detect input_data input_size self = (inr dets, self') ->
     hailo_wrapper.decode (hailo_wrapper.raw_output input_data input_size self)
     = [r1; r2] ->
     B32.ge (hailo_wrapper.confidence r1) hailo_wrapper.m_confidence_threshold = true ->
     B32.ge (hailo_wrapper.confidence r2) hailo_wrapper.m_confidence_threshold = true ->
     hailo_wrapper.class_id r1 <> hailo_wrapper.class_id r2 ->
     r1 ∈ dets /\ r2 ∈ dets /\ length dets = 2%nat).
Proof.
  assert (Hparse : forall output r1 r2,
     hailo_wrapper.decode output = [r1; r2] ->
     B32.ge (hailo_wrapper.confidence r1) hailo_wrapper.m_confidence_threshold = true ->
     B32.ge (hailo_wrapper.confidence r2) hailo_wrapper.m_confidence_threshold = true ->
     hailo_wrapper.class_id r1 <> hailo_wrapper.class_id r2 ->
     r1 ∈ hailo_wrapper.parseDetections output /\
     r2 ∈ hailo_wrapper.parseDetections output /\
     length (hailo_wrapper.parseDetections output) = 2%nat).
  { intros output r1 r2 Hdec Hk1 Hk2 Hc.
    rewrite PostFacts.parseDetections_nms_from.
    pose proof (PostFacts.sorted_Permutation output) as Hp.
    rewrite Hdec in Hp |- *. simpl in Hp |- *.
    unfold hailo_wrapper.keeps in Hp |- *. rewrite Hk1, Hk2 in Hp |- *.
    assert (Hs12 : hailo_wrapper.suppresses r1 r2 = false).
    { unfold hailo_wrapper.suppresses. by rewrite (proj2 (Z.eqb_neq _ _) Hc). }
    assert (Hs21 : hailo_wrapper.suppresses r2 r1 = false).
    { unfold hailo_wrapper.suppresses.
      by rewrite (proj2 (Z.eqb_neq _ _) (not_eq_sym Hc)). }
    apply Permutation_length_2_inv in Hp as [-> | ->]; simpl.
    - rewrite Hs12. simpl. rewrite !elem_of_cons. auto.
    - rewrite Hs21. simpl. rewrite !elem_of_cons. auto. }
  split; [exact Hparse |].
  intros input_data input_size self dets self' r1 r2 Hd.
  apply SessionFacts.detect_returns_parsed in Hd as (_ & _ & ->).
  apply Hparse.
Qed.

(** C8 (deterministic example).  On a raw output that decodes to
    (0,0,10,10,0.9,0), (1,1,9,9,0.8,0), (50,50,60,60,0.7,1), with the
    thresholds 0.5f and 0.45f, [parseDetections], hence [detect], returns the
    first and the third record, in that order; the IoU of the first two is
    0.64f, above the NMS threshold. *)
Theorem deterministic_example :
  (forall output,
     hailo_wrapper.decode output = [Concrete.d1; Concrete.d2; Concrete.d3] ->
     hailo_wrapper.parseDetections output = [Concrete.d1; Concrete.d3]) /\
  (forall input_data input_size self dets self',
     hailo_wrapper.detect input_data input_size self = (inr dets, self') ->
     hailo_wrapper.decode (hailo_wrapper.raw_output input_data input_size self)
     = [Concrete.d1; Concrete.d2; Concrete.d3] ->
     dets = [Concrete.d1; Concrete.d3]) /\
  hailo_wrapper.iou Concrete.d1 Concrete.d2 = B32.lit 64 100 /\
  B32.gt (hailo_wrapper.iou Concrete.d1 Concrete.d2) hailo_wrapper.m_nms_threshold
  = true.
Proof.
  assert (Hparse : forall output,
     hailo_wrapper.decode output = [Concrete.d1; Concrete.d2; Concrete.d3] ->
     hailo_wrapper.parseDetections output = [Concrete.d1; Concrete.d3]).
  { intros output Hdec.
    rewrite PostFacts.parseDetections_nms_from.
    pose proof (PostFacts.sorted_Permutation output) as Hp.
    pose proof (std_sort_spec _ hailo_wrapper.by_confidence
                  (List.filter hailo_wrapper.keeps (hailo_wrapper.decode output))
                  (PostFacts.by_confidence_strict_weak _ (PostFacts.filter_keeps _)))
      as [_ Hs].
    rewrite Hdec in Hp, Hs |- *.
    change (List.filter hailo_wrapper.keeps [Concrete.d1; Concrete.d2; Concrete.d3])
      with [Concrete.d1; Concrete.d2; Concrete.d3] in *.
    assert (Heq : [Concrete.d1; Concrete.d2; Concrete.d3]
                  = std_sort hailo_wrapper.by_confidence
                      [Concrete.d1; Concrete.d2; Concrete.d3]).
    { eapply (StronglySorted_unique_strong
                (fun a b => hailo_wrapper.by_confidence b a = false));
        [| | exact Hs | exact Hp].
      - intros x1 x2 Hx1 Hx2. rewrite <- Hp in Hx2.
        rewrite !elem_of_cons, elem_of_nil in Hx1, Hx2.
        destruct Hx1 as [-> | [-> | [-> | []]]], Hx2 as [-> | [-> | [-> | []]]];
          try done; vm_compute; intros; congruence.
      - repeat constructor. }
    rewrite <- Heq. vm_compute. reflexivity. }
  split; [exact Hparse |]. split; [| split; vm_compute; reflexivity].
  intros input_data input_size self dets self' Hd.
  apply SessionFacts.detect_returns_parsed in Hd as (_ & _ & ->).
  apply Hparse.
Qed.

(** C9 (null handle).  With a null handle, [hailo_get_input_info] returns the
    all-zero struct, and [hailo_detect_people] and [hailo_detect] return -1;
    each records the message "Invalid handle" on the calling thread, no engine
    is touched, and [hailo_detect] leaves the caller's array alone. *)
Theorem null_handle_sentinels :
  (forall g_last_error,
     hailo_get_input_info None g_last_error
     = {| returned := {| width := 0; height := 0; channels := 0; frame_size := 0%N |};
          engine := None;
          last_error := "Invalid handle" |}) /\
  (forall input_data input_size g_last_error,
     hailo_detect_people None input_data input_size g_last_error
     = {| returned := -1; engine := None; last_error := "Invalid handle" |}) /\
  (forall input_data input_size detections max_detections g_last_error,
     hailo_detect None input_data input_size detections max_detections g_last_error
     = ({| returned := -1; engine := None; last_error := "Invalid handle" |},
        detections)).
Proof. repeat split. Qed.

(** C10 (capacity of zero or less).  When [detect] succeeds and
    [max_detections] is zero or negative, [hailo_detect] returns 0, not -1,
    writes nothing into the array and leaves [g_last_error] as it was. *)
Theorem hailo_detect_nonpositive_capacity input_data input_size self dets self'
    detections max_detections g_last_error :
  hailo_wrapper.detect input_data input_size self = (inr dets, self') ->
  max_detections <= 0 ->
  hailo_detect (Some self) input_data input_size detections max_detections
    g_last_error
  = ({| returned := 0; engine := Some self'; last_error := g_last_error |},
     detections).
Proof.
  intros Hd Hk. unfold hailo_detect. rewrite Hd.
  by rewrite BoundaryFacts.copy_loop_nonpositive.
Qed.

End Properties.

(** * Further properties of the code *)

(** ** Decoding: which bytes a record is read from *)

Module DecodeFacts.
Import hailo_wrapper.

Lemma num_detections_div (output : list byte) :
  num_detections output = (length output / 24)%nat.
Proof. unfold num_detections, detection_size. by rewrite Nat.Div0.div_div. Qed.

Lemma num_detections_bound (output : list byte) i :
  (i < num_detections output)%nat -> (24 * i + 24 <= length output)%nat.
Proof.
  rewrite num_detections_div. intros Hi.
  pose proof (Nat.Div0.mul_div_le (length output) 24). lia.
Qed.

Lemma byte_at_app_l (a b : list byte) k :
  (k < length a)%nat -> byte_at (a ++ b) k = byte_at a k.
Proof. intros Hk. unfold byte_at. by rewrite lookup_app_l. Qed.

Lemma byte_at_app_r (a b : list byte) k :
  byte_at (a ++ b) (length a + k) = byte_at b k.
Proof.
  unfold byte_at. rewrite lookup_app_r by lia.
  by replace (length a + k - length a)%nat with k by lia.
Qed.

Lemma float_at_app_l (a b : list byte) k :
  (4 * k + 3 < length a)%nat -> float_at (a ++ b) k = float_at a k.
Proof. intros Hk. unfold float_at. by rewrite !byte_at_app_l by lia. Qed.

Lemma float_at_app_r (a b : list byte) n k :
  length a = (4 * n)%nat -> float_at (a ++ b) (n + k) = float_at b k.
Proof.
  intros Ha. unfold float_at.
  replace (4 * (n + k))%nat with (length a + 4 * k)%nat by lia.
  replace (length a + 4 * k + 1)%nat with (length a + (4 * k + 1))%nat by lia.
  replace (length a + 4 * k + 2)%nat with (length a + (4 * k + 2))%nat by lia.
  replace (length a + 4 * k + 3)%nat with (length a + (4 * k + 3))%nat by lia.
  by rewrite !byte_at_app_r.
Qed.

Section Decode.
Context `{!CxxImpl}.

Lemma read_detection_app_l (a b : list byte) i :
  (24 * i + 24 <= length a)%nat ->
  read_detection (a ++ b) i = read_detection a i.
Proof.
  intros Hi. unfold read_detection, detection_size. cbv zeta.
  by rewrite !float_at_app_l by lia.
Qed.

Lemma read_detection_app_r (a b : list byte) n i :
  length a = (24 * n)%nat ->
  read_detection (a ++ b) (n + i) = read_detection b i.
Proof.
  intros Ha. unfold read_detection, detection_size. cbv zeta.
  replace ((n + i) * 6 + 0)%nat with (6 * n + (i * 6 + 0))%nat by lia.
  replace ((n + i) * 6 + 1)%nat with (6 * n + (i * 6 + 1))%nat by lia.
  replace ((n + i) * 6 + 2)%nat with (6 * n + (i * 6 + 2))%nat by lia.
  replace ((n + i) * 6 + 3)%nat with (6 * n + (i * 6 + 3))%nat by lia.
  replace ((n + i) * 6 + 4)%nat with (6 * n + (i * 6 + 4))%nat by lia.
  replace ((n + i) * 6 + 5)%nat with (6 * n + (i * 6 + 5))%nat by lia.
  by rewrite !(float_at_app_r a b (6 * n)) by lia.
Qed.

Lemma decode_trailing (output extra : list byte) :
  (length output mod 24 + length extra < 24)%nat ->
  decode (output ++ extra) = decode output.
Proof.
  intros Hx. unfold decode.
  assert (Hn : num_detections (output ++ extra) = num_detections output).
  { rewrite !num_detections_div, length_app.
    rewrite (Nat.div_mod_eq (length output) 24) at 1.
    rewrite <- Nat.add_assoc, Nat.mul_comm, Nat.div_add_l by lia.
    rewrite (Nat.div_small (_ + _)) by lia. lia. }
  rewrite Hn. apply map_ext_in. intros i Hi. apply in_seq in Hi.
  apply read_detection_app_l, num_detections_bound. lia.
Qed.

Lemma decode_app (a b : list byte) n :
  length a = (24 * n)%nat -> decode (a ++ b) = decode a ++ decode b.
Proof.
  intros Ha. unfold decode.
  assert (Hna : num_detections a = n).
  { rewrite num_detections_div, Ha, Nat.mul_comm. apply Nat.div_mul. lia. }
  assert (Hn : num_detections (a ++ b) = (n + num_detections b)%nat).
  { rewrite !num_detections_div, length_app, Ha, Nat.mul_comm.
    rewrite Nat.div_add_l by lia. done. }
  rewrite Hn, Hna, seq_app, map_app. f_equal.
  - apply map_ext_in. intros i Hi. apply in_seq in Hi.
    apply read_detection_app_l. lia.
  - simpl.
    replace (seq n (num_detections b))
      with ((fun k => n + k)%nat <$> seq 0 (num_detections b))
      by (rewrite fmap_add_seq; f_equal; lia).
    rewrite <- list_fmap_compose.
    apply map_ext. intros i. simpl. by apply read_detection_app_r.
Qed.

Lemma decode_short (output : list byte) :
  (length output < 24)%nat -> decode output = [].
Proof.
  intros Hl. unfold decode. rewrite num_detections_div, Nat.div_small by lia. done.
Qed.

Lemma decode_length (output : list byte) :
  length (decode output) = num_detections output.
Proof. unfold decode. by rewrite length_map, length_seq. Qed.

End Decode.
End DecodeFacts.

(** ** More on binary32 and on [iou] *)

Module RangeFacts.
Import B32 B32Facts IouFacts hailo_wrapper.

Lemma le_refl a : is_nan a = false -> le a a = true.
Proof. intros Ha. float_order. Qed.

Lemma nonneg_ge_zero x : nonneg x = true -> ge x zero = true.
Proof. destruct x as [[]|[]| |[] m e]; simpl; try discriminate; reflexivity. Qed.

Lemma div_nonneg x y :
  nonneg x = true -> x <> S754_infinity false -> lt zero y = true ->
  nonneg (div x y) = true.
Proof.
  destruct x as [[]|[]| |[] mx ex], y as [[]|[]| |[] my ey];
    simpl; try discriminate; try congruence; intros _ _ _.
  unfold div, SFdiv.
  pose proof (div_core_nonneg mx ex my ey) as H.
  destruct (SFdiv_core_binary prec emax (Z.pos mx) ex (Z.pos my) ey) as [[mz ez] lz].
  simpl in H. simpl. apply binary_round_aux_nonneg, H.
Qed.

Lemma intersection_nonneg a b :
  is_nan (intersection a b) = true \/ nonneg (intersection a b) = true.
Proof. unfold intersection. apply mul_nonneg; apply max_zero_nonneg. Qed.

Lemma iou_nonneg a b : nonneg (iou a b) = true.
Proof.
  rewrite iou_unfold. cbv zeta. unfold union_area.
  destruct (gt _ zero) eqn:Hu; [| reflexivity].
  unfold gt in Hu. fold (lt zero (sub (add (area a) (area b)) (intersection a b))) in Hu.
  destruct (intersection_nonneg a b) as [Hn | Hn].
  - destruct (intersection a b); try discriminate.
    rewrite sub_nan_r in Hu. discriminate.
  - apply div_nonneg; auto.
    intros Hi. rewrite Hi, sub_inf_not_pos in Hu. discriminate.
Qed.

Lemma nan_never_suppresses a b :
  has_nan a || has_nan b = true -> suppresses a b = false.
Proof.
  intros H. unfold suppresses. rewrite (iou_nan_zero a b H).
  apply andb_false_r.
Qed.

End RangeFacts.

(** ** Greedy suppression: what is dropped, and what never is *)

Module NmsFacts.
Import hailo_wrapper.

Lemma existsb_suppresses_false (emitted : list Detection) d :
  existsb (fun k => suppresses k d) emitted = false <->
  forall k, k ∈ emitted -> suppresses k d = false.
Proof.
  induction emitted as [| e emitted IH]; simpl.
  - split; [intros _ k Hk; by apply elem_of_nil in Hk | done].
  - rewrite orb_false_iff, IH. split.
    + intros [He Hall] k Hk. apply elem_of_cons in Hk as [-> | Hk]; auto.
    + intros Hall. split; [apply Hall; by left |].
      intros k Hk. apply Hall. by right.
Qed.

(** A detection of the list is emitted, or suppressed by one emitted before
    the list, or suppressed by one emitted from earlier in the list. *)
Lemma nms_from_complete (R : Detection -> Detection -> Prop)
    (l : list Detection) : forall emitted d,
  StronglySorted R l -> d ∈ l ->
  d ∈ nms_from emitted l \/
  (exists k, k ∈ emitted /\ suppresses k d = true) \/
  (exists k, k ∈ nms_from emitted l /\ suppresses k d = true /\ R k d).
Proof.
  induction l as [| e l IH]; intros emitted d Hs Hd.
  - by apply elem_of_nil in Hd.
  - apply StronglySorted_inv in Hs as [Hs He]. rewrite Forall_forall in He.
    simpl. destruct (existsb _ emitted) eqn:Hex.
    + apply elem_of_cons in Hd as [-> | Hd].
      * right. left. apply existsb_exists in Hex as (k & Hk & Hsup).
        exists k. split; [by apply list_elem_of_In | done].
      * by apply IH.
    + apply elem_of_cons in Hd as [-> | Hd]; [left; by left |].
      destruct (IH (emitted ++ [e]) d Hs Hd) as [Hin | [(k & Hk & Hsup) | (k & Hk & Hsup & Hr)]].
      * left. by right.
      * apply elem_of_app in Hk as [Hk | Hk].
        -- right. left. by exists k.
        -- apply list_elem_of_singleton in Hk as ->.
           right. right. exists e. repeat split; [by left | done | by apply He].
      * right. right. exists k. repeat split; [by right | done | done].
Qed.

(** Nothing is dropped from a list in which no detection suppresses a later
    one and none is suppressed from outside. *)
Lemma nms_from_fixed (l : list Detection) : forall emitted,
  (forall k d, k ∈ emitted -> d ∈ l -> suppresses k d = false) ->
  StronglySorted (fun a b => suppresses a b = false) l ->
  nms_from emitted l = l.
Proof.
  induction l as [| e l IH]; intros emitted Hout Hs; simpl; [done |].
  apply StronglySorted_inv in Hs as [Hs He]. rewrite Forall_forall in He.
  rewrite (proj2 (existsb_suppresses_false emitted e)).
  2: { intros k Hk. apply Hout; [done | by left]. }
  f_equal. apply IH; [| done].
  intros k d Hk Hd. apply elem_of_app in Hk as [Hk | Hk].
  - apply Hout; [done | by right].
  - apply list_elem_of_singleton in Hk as ->. by apply He.
Qed.

Lemma distinct_classes_pairwise (l : list Detection) :
  NoDup (map class_id l) ->
  StronglySorted (fun a b => suppresses a b = false) l.
Proof.
  induction l as [| e l IH]; intros Hnd; [constructor |].
  simpl in Hnd. apply NoDup_cons in Hnd as [Hne Hnd].
  constructor; [by apply IH |].
  apply Forall_forall. intros d Hd. unfold suppresses.
  destruct (class_id e =? class_id d) eqn:Hc; [| done].
  apply Z.eqb_eq in Hc. exfalso. apply Hne. rewrite Hc.
  apply list_elem_of_fmap. by exists d.
Qed.

Lemma filter_sublist {A} (p : A -> bool) (l : list A) :
  List.filter p l `sublist_of` l.
Proof.
  induction l as [| x l IH]; simpl; [constructor |].
  destruct (p x); [by apply sublist_skip | by apply sublist_cons].
Qed.

End NmsFacts.

(** ** [detect], call by call *)

Module DetectFacts.
Import hailo_wrapper.

Section Detect.
Context `{!CxxImpl} `{!HailoRT}.

(** [detect] by cases on the size test and on the three statuses. *)
Lemma detect_cases input_data input_size self :
  detect input_data input_size self =
    if negb (input_size =? frame_size (m_input_info self))%N then
      (inl (runtime_error ("Input size mismatch: expected "
              ++ to_string_size_t (frame_size (m_input_info self))
              ++ ", got " ++ to_string_size_t input_size)), self)
    else
      let self1 :=
        set_bindings self (snd (input_binding input_data input_size self)) in
      if negb (fst (input_binding input_data input_size self) =? HAILO_SUCCESS) then
        (inl (runtime_error "Failed to set input buffer"), self1)
      else
        let self2 :=
          set_bindings self1 (snd (output_binding input_data input_size self)) in
        if negb (fst (output_binding input_data input_size self) =? HAILO_SUCCESS) then
          (inl (runtime_error "Failed to set output buffer"), self2)
        else
          let self3 :=
            set_configured_model self2
              (snd (fst (inference input_data input_size self))) in
          let status := fst (fst (inference input_data input_size self)) in
          if negb (status =? HAILO_SUCCESS) then
            (inl (runtime_error ("Inference failed: " ++ to_string_int status)), self3)
          else
            (inr (parseDetections (raw_output input_data input_size self)), self3).
Proof.
  unfold detect, raw_output, inference, output_binding, input_binding,
    bind, this, throw, assign, ret.
  destruct (input_size =? _)%N; simpl; [| done].
  destruct (input_set_buffer _ _) as [st1 b1]. simpl.
  destruct (st1 =? HAILO_SUCCESS); simpl; [| done].
  destruct (output_set_buffer _ _) as [st2 b2]. simpl.
  destruct (st2 =? HAILO_SUCCESS); simpl; [| done].
  destruct (run _ _ _) as [[st3 c] written]. simpl.
  by destruct (st3 =? HAILO_SUCCESS).
Qed.

Lemma detect_keeps_geometry input_data input_size self :
  let self' := snd (detect input_data input_size self) in
  m_input_info self' = m_input_info self /\
  m_output_size self' = m_output_size self /\
  m_vdevice self' = m_vdevice self /\
  m_infer_model self' = m_infer_model self.
Proof.
  rewrite detect_cases. cbv zeta.
  destruct (negb (input_size =? _)%N); [done |].
  destruct (negb (fst (input_binding _ _ _) =? _)); [done |].
  destruct (negb (fst (output_binding _ _ _) =? _)); [done |].
  by destruct (negb (fst (fst (inference _ _ _)) =? _)).
Qed.

End Detect.
End DetectFacts.

(** ** The count of the copy loop *)

Module CopyFacts.

Lemma copy_loop_count_nonneg cpp_detections max_detections :
  forall count detections,
    0 <= count -> max_detections <= int_max ->
    0 <= fst (copy_loop cpp_detections max_detections count detections).
Proof.
  induction cpp_detections as [| det rest IH]; intros count detections Hc Hk; simpl.
  - done.
  - destruct (count >=? max_detections) eqn:Hge; simpl; [done |].
    apply IH; [| done].
    rewrite BoundaryFacts.int_wrap_small; unfold int_min, int_max in *; lia.
Qed.

End CopyFacts.

(** ** Post-processing *)

Section PostProcessingProperties.
Context `{!CxxImpl}.

(** X1 (trailing bytes).  Bytes after the last complete 24-byte record do
    not change the result: appending to a buffer fewer bytes than complete its
    next record leaves [parseDetections] as it was. *)
Theorem trailing_bytes_ignored (output extra : list byte) :
  (length output mod 24 + length extra < 24)%nat ->
  hailo_wrapper.parseDetections (output ++ extra)
  = hailo_wrapper.parseDetections output.
Proof.
  intros Hx. rewrite !PostFacts.parseDetections_nms_from.
  by rewrite DecodeFacts.decode_trailing.
Qed.

(** X2 (decoding is record by record).  The decoding loop reads each record
    from its own 24 bytes: on two buffers joined at a record boundary it
    gives the kept records of the first followed by those of the second. *)
Theorem decoding_loop_app (a b : list byte) (n : nat) :
  length a = (24 * n)%nat ->
  hailo_wrapper.parse_loop (a ++ b)
  = hailo_wrapper.parse_loop a ++ hailo_wrapper.parse_loop b.
Proof.
  intros Ha. rewrite !LoopFacts.parse_loop_filter.
  rewrite (DecodeFacts.decode_app a b n Ha). apply List.filter_app.
Qed.

(** X3 (suppression is idempotent).  The suppression loops applied to the
    output of [parseDetections] drop nothing more. *)
Theorem suppression_idempotent (output : list byte) :
  fst (hailo_wrapper.nms_outer (hailo_wrapper.parseDetections output))
  = hailo_wrapper.parseDetections output.
Proof.
  rewrite LoopFacts.nms_outer_nms_from.
  apply NmsFacts.nms_from_fixed.
  - intros k d Hk. by apply elem_of_nil in Hk.
  - apply PostFacts.parseDetections_pairwise.
Qed.

(** X4 (range and symmetry of [iou]).  For all boxes, NaN, infinite and
    inverted ones included, [iou] is symmetric, is never a NaN and is never
    negative. *)
Theorem iou_symmetric_nonnegative (a b : hailo_wrapper.Detection) :
  hailo_wrapper.iou a b = hailo_wrapper.iou b a /\
  B32.is_nan (hailo_wrapper.iou a b) = false /\
  B32.ge (hailo_wrapper.iou a b) B32.zero = true.
Proof.
  split; [apply IouFacts.iou_sym |]. split; [apply IouFacts.iou_not_nan |].
  apply RangeFacts.nonneg_ge_zero, RangeFacts.iou_nonneg.
Qed.

Context `{!StdSortContract}.

(** X5 (short buffer).  A buffer of fewer than 24 bytes, the empty one
    included, holds no record: [parseDetections] returns the empty sequence,
    and so does a successful [detect] of a session whose output size is below
    24. *)
Theorem short_buffer_no_detections :
  (forall output : list byte,
     (length output < 24)%nat -> hailo_wrapper.parseDetections output = []) /\
  (forall `{!HailoRT} input_data input_size self dets self',
     hailo_wrapper.detect input_data input_size self = (inr dets, self') ->
     (hailo_wrapper.m_output_size self < 24)%N ->
     dets = []).
Proof.
  assert (Hparse : forall output : list byte,
     (length output < 24)%nat -> hailo_wrapper.parseDetections output = []).
  { intros output Hl. rewrite PostFacts.parseDetections_nms_from.
    pose proof (PostFacts.sorted_Permutation output) as Hp.
    rewrite (DecodeFacts.decode_short output Hl) in Hp |- *. simpl in Hp |- *.
    apply Permutation_nil_l in Hp. by rewrite <- Hp. }
  split; [exact Hparse |].
  intros ? input_data input_size self dets self' Hd Hsz.
  apply SessionFacts.detect_returns_parsed in Hd as (_ & Hlen & ->).
  apply Hparse. lia.
Qed.

(** X6 (nothing is invented).  Every detection of the output is one of the
    decoded records, no more often than it was decoded, so the output has
    at most one detection per 24 bytes of the buffer; a successful [detect]
    therefore returns at most as many detections as the session's output
    size holds records. *)
Theorem output_within_decoded :
  (forall output : list byte,
     hailo_wrapper.parseDetections output ⊆+ hailo_wrapper.decode output /\
     (length (hailo_wrapper.parseDetections output) <= length output / 24)%nat) /\
  (forall `{!HailoRT} input_data input_size self dets self',
     hailo_wrapper.detect input_data input_size self = (inr dets, self') ->
     (length dets <= N.to_nat (hailo_wrapper.m_output_size self) / 24)%nat).
Proof.
  assert (Hparse : forall output : list byte,
     hailo_wrapper.parseDetections output ⊆+ hailo_wrapper.decode output /\
     (length (hailo_wrapper.parseDetections output) <= length output / 24)%nat).
  { intros output.
    assert (Hsub : hailo_wrapper.parseDetections output
                   ⊆+ hailo_wrapper.decode output).
    { etrans; [apply sublist_submseteq, PostFacts.parseDetections_sublist |].
      rewrite <- PostFacts.sorted_Permutation.
      apply sublist_submseteq, NmsFacts.filter_sublist. }
    split; [exact Hsub |].
    apply submseteq_length in Hsub.
    by rewrite DecodeFacts.decode_length, DecodeFacts.num_detections_div in Hsub. }
  split; [exact Hparse |].
  intros ? input_data input_size self dets self' Hd.
  apply SessionFacts.detect_returns_parsed in Hd as (_ & Hlen & ->).
  rewrite <- Hlen. apply Hparse.
Qed.

(** X7 (the best detection comes first).  When some decoded record passes
    the confidence filter, the output is not empty and its first detection
    has a confidence at least that of every record that passed; the output is
    empty exactly when no decoded record passes the filter. *)
Theorem most_confident_first (output : list byte) :
  (forall r,
     r ∈ hailo_wrapper.decode output ->
     B32.ge (hailo_wrapper.confidence r) hailo_wrapper.m_confidence_threshold = true ->
     exists d,
       hailo_wrapper.parseDetections output !! 0%nat = Some d /\
       B32.ge (hailo_wrapper.confidence d) (hailo_wrapper.confidence r) = true) /\
  (hailo_wrapper.parseDetections output = [] <->
   forall r,
     r ∈ hailo_wrapper.decode output ->
     B32.ge (hailo_wrapper.confidence r) hailo_wrapper.m_confidence_threshold = false).
Proof.
  assert (Hfirst : forall r,
     r ∈ hailo_wrapper.decode output ->
     B32.ge (hailo_wrapper.confidence r) hailo_wrapper.m_confidence_threshold = true ->
     exists d,
       hailo_wrapper.parseDetections output !! 0%nat = Some d /\
       B32.ge (hailo_wrapper.confidence d) (hailo_wrapper.confidence r) = true).
  { intros r Hr Hk.
    assert (Hin : r ∈ std_sort hailo_wrapper.by_confidence
                    (List.filter hailo_wrapper.keeps (hailo_wrapper.decode output))).
    { rewrite <- PostFacts.sorted_Permutation.
      apply list_elem_of_In, filter_In. split; [by apply list_elem_of_In | done]. }
    pose proof (PostFacts.sorted_descending output) as Hs.
    rewrite PostFacts.parseDetections_nms_from.
    destruct (std_sort _ _) as [| h t]; [by apply elem_of_nil in Hin |].
    exists h. split; [done |].
    apply elem_of_cons in Hin as [-> | Hin].
    - apply RangeFacts.le_refl. by apply PostFacts.keeps_not_nan.
    - apply StronglySorted_inv in Hs as [_ Hh]. rewrite Forall_forall in Hh.
      by apply Hh. }
  split; [exact Hfirst |]. split.
  - intros Hnil r Hr.
    destruct (B32.ge _ _) eqn:Hk; [| done].
    destruct (Hfirst r Hr Hk) as (d & Hd & _). by rewrite Hnil in Hd.
  - intros Hnone. rewrite PostFacts.parseDetections_nms_from.
    pose proof (PostFacts.sorted_Permutation output) as Hp.
    assert (Hf : List.filter hailo_wrapper.keeps (hailo_wrapper.decode output) = []).
    { destruct (List.filter _ _) as [| r l] eqn:Hf; [done |].
      assert (Hr : In r (List.filter hailo_wrapper.keeps (hailo_wrapper.decode output)))
        by (rewrite Hf; by left).
      apply filter_In in Hr as [Hr Hk]. apply list_elem_of_In in Hr.
      unfold hailo_wrapper.keeps in Hk. rewrite (Hnone r Hr) in Hk. done. }
    rewrite Hf in Hp |- *. apply Permutation_nil_l in Hp. by rewrite <- Hp.
Qed.

(** X8 (what is dropped, and why).  A decoded record that passes the
    confidence filter is in the output, or the output holds a detection of
    the same class, of at least its confidence, whose IoU with it is above
    the NMS threshold. *)
Theorem dropped_only_under_a_stronger_one (output : list byte) r :
  r ∈ hailo_wrapper.decode output ->
  B32.ge (hailo_wrapper.confidence r) hailo_wrapper.m_confidence_threshold = true ->
  r ∈ hailo_wrapper.parseDetections output \/
  exists d,
    d ∈ hailo_wrapper.parseDetections output /\
    hailo_wrapper.class_id d = hailo_wrapper.class_id r /\
    B32.gt (hailo_wrapper.iou d r) hailo_wrapper.m_nms_threshold = true /\
    B32.ge (hailo_wrapper.confidence d) (hailo_wrapper.confidence r) = true.
Proof.
  intros Hr Hk.
  assert (Hin : r ∈ std_sort hailo_wrapper.by_confidence
                  (List.filter hailo_wrapper.keeps (hailo_wrapper.decode output))).
  { rewrite <- PostFacts.sorted_Permutation.
    apply list_elem_of_In, filter_In. split; [by apply list_elem_of_In | done]. }
  rewrite PostFacts.parseDetections_nms_from.
  destruct (NmsFacts.nms_from_complete _ _ [] r (PostFacts.sorted_descending output) Hin)
    as [Hout | [(k & Hk' & _) | (k & Hk' & Hsup & Hge)]].
  - by left.
  - by apply elem_of_nil in Hk'.
  - right. exists k. unfold hailo_wrapper.suppresses in Hsup.
    apply andb_true_iff in Hsup as [Hc Hiou]. apply Z.eqb_eq in Hc. done.
Qed.

(** X9 (one record per class).  When the records that pass the confidence
    filter all have different classes, suppression drops none of them: the
    output is a permutation of them. *)
Theorem distinct_classes_all_kept (output : list byte) :
  NoDup (map hailo_wrapper.class_id
           (List.filter hailo_wrapper.keeps (hailo_wrapper.decode output))) ->
  hailo_wrapper.parseDetections output
  ≡ₚ List.filter hailo_wrapper.keeps (hailo_wrapper.decode output).
Proof.
  intros Hnd. rewrite PostFacts.parseDetections_nms_from.
  pose proof (PostFacts.sorted_Permutation output) as Hp.
  rewrite NmsFacts.nms_from_fixed; [by symmetry | |].
  - intros k d Hk. by apply elem_of_nil in Hk.
  - apply NmsFacts.distinct_classes_pairwise. by rewrite <- Hp.
Qed.

(** X10 (boxes with a NaN corner).  [iou] is 0 as soon as a coordinate of
    either box is a NaN, so a decoded record with a NaN coordinate that passes
    the confidence filter is never suppressed: it is in the output. *)
Theorem nan_box_never_suppressed :
  (forall a b,
     hailo_wrapper.has_nan a || hailo_wrapper.has_nan b = true ->
     hailo_wrapper.iou a b = B32.zero) /\
  (forall (output : list byte) r,
     r ∈ hailo_wrapper.decode output ->
     B32.ge (hailo_wrapper.confidence r) hailo_wrapper.m_confidence_threshold = true ->
     hailo_wrapper.has_nan r = true ->
     r ∈ hailo_wrapper.parseDetections output).
Proof.
  split; [exact IouFacts.iou_nan_zero |].
  intros output r Hr Hk Hnan.
  assert (Hin : r ∈ std_sort hailo_wrapper.by_confidence
                  (List.filter hailo_wrapper.keeps (hailo_wrapper.decode output))).
  { rewrite <- PostFacts.sorted_Permutation.
    apply list_elem_of_In, filter_In. split; [by apply list_elem_of_In | done]. }
  rewrite PostFacts.parseDetections_nms_from.
  destruct (NmsFacts.nms_from_complete _ _ [] r (PostFacts.sorted_descending output) Hin)
    as [Hout | [(k & Hk' & _) | (k & _ & Hsup & _)]].
  - done.
  - by apply elem_of_nil in Hk'.
  - rewrite RangeFacts.nan_never_suppresses in Hsup; [done |].
    rewrite Hnan. apply orb_true_r.
Qed.

End PostProcessingProperties.

(** ** The session, the boundary and creation *)

Section SessionProperties.
Context `{!CxxImpl} `{!HailoRT}.

(** X11 (the geometry is fixed).  Whatever [detect] or [detectPeople] does,
    succeed or throw at any step, the session's input geometry and output
    size are afterwards what they were: [getInputInfo] gives the same answer
    before and after every call. *)
Theorem geometry_fixed_across_calls input_data input_size self :
  hailo_wrapper.getInputInfo (snd (hailo_wrapper.detect input_data input_size self))
  = hailo_wrapper.getInputInfo self /\
  hailo_wrapper.m_output_size (snd (hailo_wrapper.detect input_data input_size self))
  = hailo_wrapper.m_output_size self /\
  hailo_wrapper.getInputInfo
    (snd (hailo_wrapper.detectPeople input_data input_size self))
  = hailo_wrapper.getInputInfo self.
Proof.
  pose proof (DetectFacts.detect_keeps_geometry input_data input_size self)
    as (Hi & Ho & _).
  cbv zeta in Hi, Ho. unfold hailo_wrapper.getInputInfo.
  split; [done |]. split; [done |].
  rewrite SessionFacts.detectPeople_detect.
  by destruct (hailo_wrapper.detect input_data input_size self) as [[e | dets] self'].
Qed.

(** X12 (failures after the size gate).  On an input of the right size,
    [detect] stops at the first HailoRT call that does not return
    [HAILO_SUCCESS]: a failed input binding throws "Failed to set input
    buffer" with no output buffer bound and no inference run; a failed output
    binding throws "Failed to set output buffer" with no inference run; a
    failed run throws "Inference failed: " followed by the status. *)
Theorem detect_failure_modes input_data input_size self :
  input_size = hailo_wrapper.frame_size (hailo_wrapper.m_input_info self) ->
  let st_in := fst (hailo_wrapper.input_binding input_data input_size self) in
  let st_out := fst (hailo_wrapper.output_binding input_data input_size self) in
  let st_run := fst (fst (hailo_wrapper.inference input_data input_size self)) in
  let result := hailo_wrapper.detect input_data input_size self in
  (st_in <> HAILO_SUCCESS ->
     fst result = inl (hailo_wrapper.runtime_error "Failed to set input buffer") /\
     hailo_wrapper.m_bindings (snd result)
     = snd (hailo_wrapper.input_binding input_data input_size self) /\
     hailo_wrapper.m_configured_model (snd result)
     = hailo_wrapper.m_configured_model self) /\
  (st_in = HAILO_SUCCESS -> st_out <> HAILO_SUCCESS ->
     fst result = inl (hailo_wrapper.runtime_error "Failed to set output buffer") /\
     hailo_wrapper.m_bindings (snd result)
     = snd (hailo_wrapper.output_binding input_data input_size self) /\
     hailo_wrapper.m_configured_model (snd result)
     = hailo_wrapper.m_configured_model self) /\
  (st_in = HAILO_SUCCESS -> st_out = HAILO_SUCCESS -> st_run <> HAILO_SUCCESS ->
     fst result
     = inl (hailo_wrapper.runtime_error
              ("Inference failed: " ++ to_string_int st_run)) /\
     hailo_wrapper.m_configured_model (snd result)
     = snd (fst (hailo_wrapper.inference input_data input_size self))).
Proof.
  intros Hsz st_in st_out st_run result. subst result.
  rewrite DetectFacts.detect_cases. cbv zeta.
  rewrite (proj2 (N.eqb_eq _ _) Hsz). simpl.
  fold st_in st_out st_run. split; [| split].
  - intros Hin. by rewrite (proj2 (Z.eqb_neq _ _) Hin).
  - intros Hin Hout.
    by rewrite (proj2 (Z.eqb_eq _ _) Hin), (proj2 (Z.eqb_neq _ _) Hout).
  - intros Hin Hout Hrun.
    by rewrite (proj2 (Z.eqb_eq _ _) Hin), (proj2 (Z.eqb_eq _ _) Hout),
      (proj2 (Z.eqb_neq _ _) Hrun).
Qed.

(** X13 (when [detect] succeeds).  [detect] returns detections exactly when
    the size matches and the two bindings and the run all return
    [HAILO_SUCCESS]; what it returns then is [parseDetections] of the raw
    output. *)
Theorem detect_succeeds_iff input_data input_size self :
  let ok :=
    input_size = hailo_wrapper.frame_size (hailo_wrapper.m_input_info self) /\
    fst (hailo_wrapper.input_binding input_data input_size self) = HAILO_SUCCESS /\
    fst (hailo_wrapper.output_binding input_data input_size self) = HAILO_SUCCESS /\
    fst (fst (hailo_wrapper.inference input_data input_size self)) = HAILO_SUCCESS in
  ((exists dets, fst (hailo_wrapper.detect input_data input_size self) = inr dets)
   <-> ok) /\
  (ok ->
   fst (hailo_wrapper.detect input_data input_size self)
   = inr (hailo_wrapper.parseDetections
            (hailo_wrapper.raw_output input_data input_size self))).
Proof.
  intros ok. subst ok. rewrite DetectFacts.detect_cases. cbv zeta.
  destruct (input_size =? _)%N eqn:Hsz; simpl.
  2: { apply N.eqb_neq in Hsz. split; [| tauto].
       split; [intros [dets Hd]; discriminate | tauto]. }
  apply N.eqb_eq in Hsz.
  destruct (fst (hailo_wrapper.input_binding _ _ _) =? HAILO_SUCCESS) eqn:Hin; simpl.
  2: { apply Z.eqb_neq in Hin. split; [| tauto].
       split; [intros [dets Hd]; discriminate | tauto]. }
  apply Z.eqb_eq in Hin.
  destruct (fst (hailo_wrapper.output_binding _ _ _) =? HAILO_SUCCESS) eqn:Hout; simpl.
  2: { apply Z.eqb_neq in Hout. split; [| tauto].
       split; [intros [dets Hd]; discriminate | tauto]. }
  apply Z.eqb_eq in Hout.
  destruct (fst (fst (hailo_wrapper.inference _ _ _)) =? HAILO_SUCCESS) eqn:Hrun; simpl.
  2: { apply Z.eqb_neq in Hrun. split; [| tauto].
       split; [intros [dets Hd]; discriminate | tauto]. }
  apply Z.eqb_eq in Hrun.
  split; [| done]. split; [done | intros _; by eexists].
Qed.

(** X14 (-1 means failure).  For a capacity that is an [int], [hailo_detect]
    on a live engine returns -1 exactly when [detect] threw; it then records
    the exception's message and leaves the caller's array as it was. *)
Theorem hailo_detect_minus_one_iff_failure input_data input_size self
    detections max_detections g_last_error :
  max_detections <= int_max ->
  let call :=
    hailo_detect (Some self) input_data input_size detections max_detections
      g_last_error in
  (returned (fst call) = -1
   <-> exists e, fst (hailo_wrapper.detect input_data input_size self) = inl e) /\
  (forall e,
     fst (hailo_wrapper.detect input_data input_size self) = inl e ->
     last_error (fst call) = hailo_wrapper.what e /\ snd call = detections).
Proof.
  intros Hk call. subst call. unfold hailo_detect.
  destruct (hailo_wrapper.detect input_data input_size self) as [[e | dets] self'];
    simpl.
  - split; [split; [by exists e | done] |]. by intros e' [= <-].
  - pose proof (CopyFacts.copy_loop_count_nonneg dets max_detections 0 detections
                  ltac:(lia) Hk) as Hc.
    destruct (copy_loop dets max_detections 0 detections) as [count detections'].
    simpl in *. split; [| done].
    split; [lia | intros [e He]; discriminate].
Qed.

(** X15 (the message of a failure outlives a success).  A successful call
    does not clear [g_last_error]: after a call rejected for its size and a
    later call that succeeds, [hailo_get_last_error] still returns the size
    message, although the later call returned a count and not -1. *)
Theorem error_message_survives_success input_data input_size self
    input_data' input_size' dets self' detections max_detections
    detections' max_detections' g_last_error :
  input_size <> hailo_wrapper.frame_size (hailo_wrapper.m_input_info self) ->
  hailo_wrapper.detect input_data' input_size' self = (inr dets, self') ->
  max_detections' <= int_max ->
  let first :=
    hailo_detect (Some self) input_data input_size detections max_detections
      g_last_error in
  let second :=
    hailo_detect (engine (fst first)) input_data' input_size' detections'
      max_detections' (last_error (fst first)) in
  returned (fst first) = -1 /\
  0 <= returned (fst second) /\
  hailo_get_last_error (last_error (fst second))
  = ("Input size mismatch: expected "
       ++ to_string_size_t (hailo_wrapper.frame_size (hailo_wrapper.m_input_info self))
       ++ ", got " ++ to_string_size_t input_size)%string.
Proof.
  intros Hne Hd Hk first second. subst second.
  assert (Hfirst : first
    = ({| returned := -1; engine := Some self;
          last_error :=
            ("Input size mismatch: expected "
               ++ to_string_size_t
                    (hailo_wrapper.frame_size (hailo_wrapper.m_input_info self))
               ++ ", got " ++ to_string_size_t input_size)%string |},
       detections)).
  { subst first. unfold hailo_detect.
    by rewrite (SessionFacts.detect_size_mismatch input_data input_size self Hne). }
  rewrite Hfirst. cbn [fst returned engine last_error].
  unfold hailo_detect. rewrite Hd.
  pose proof (CopyFacts.copy_loop_count_nonneg dets max_detections' 0 detections'
                ltac:(lia) Hk) as Hc.
  destruct (copy_loop dets max_detections' 0 detections') as [count arr].
  by cbn [fst snd returned last_error hailo_get_last_error] in *.
Qed.

(** X16 (the geometry across the boundary).  With a live engine,
    [hailo_get_input_info] returns the session's geometry field by field and
    records no error; it returns the same struct after any [hailo_detect] or
    [hailo_detect_people] call on that engine, failed or not. *)
Theorem input_info_stable_across_calls self input_data input_size detections
    max_detections g_last_error g_last_error' :
  hailo_get_input_info (Some self) g_last_error
  = {| returned :=
         {| width := hailo_wrapper.width (hailo_wrapper.m_input_info self);
            height := hailo_wrapper.height (hailo_wrapper.m_input_info self);
            channels := hailo_wrapper.channels (hailo_wrapper.m_input_info self);
            frame_size := hailo_wrapper.frame_size (hailo_wrapper.m_input_info self) |};
       engine := Some self;
       last_error := g_last_error |} /\
  returned
    (hailo_get_input_info
       (engine (fst (hailo_detect (Some self) input_data input_size detections
                       max_detections g_last_error)))
       g_last_error')
  = returned (hailo_get_input_info (Some self) g_last_error') /\
  returned
    (hailo_get_input_info
       (engine (hailo_detect_people (Some self) input_data input_size g_last_error))
       g_last_error')
  = returned (hailo_get_input_info (Some self) g_last_error').
Proof.
  pose proof (DetectFacts.detect_keeps_geometry input_data input_size self)
    as (Hi & _).
  cbv zeta in Hi. split; [done |]. split.
  - unfold hailo_detect.
    destruct (hailo_wrapper.detect input_data input_size self) as [[e | dets] self'];
      simpl in *.
    + unfold hailo_wrapper.getInputInfo. by rewrite Hi.
    + destruct (copy_loop _ _ _ _). simpl.
      unfold hailo_wrapper.getInputInfo. by rewrite Hi.
  - unfold hailo_detect_people. rewrite SessionFacts.detectPeople_detect.
    destruct (hailo_wrapper.detect input_data input_size self) as [[e | dets] self'];
      simpl in *; unfold hailo_wrapper.getInputInfo; by rewrite Hi.
Qed.

Context `{!StdSortContract}.

(** X17 (the two detection calls agree).  On the same engine and input,
    when [hailo_detect] is given room for every survivor, the count
    [hailo_detect_people] returns is the number of entries [hailo_detect]
    wrote whose [class_id] is 0. *)
Theorem people_count_matches_detect_output input_data input_size self dets self'
    detections max_detections g_last_error :
  hailo_wrapper.detect input_data input_size self = (inr dets, self') ->
  Z.of_nat (length dets) <= max_detections <= int_max ->
  (length dets <= length detections)%nat ->
  let call :=
    hailo_detect (Some self) input_data input_size detections max_detections
      g_last_error in
  returned (hailo_detect_people (Some self) input_data input_size g_last_error)
  = Z.of_nat
      (length
         (List.filter (fun c => class_id c =? 0)
            (take (Z.to_nat (returned (fst call))) (snd call)))).
Proof.
  intros Hd Hk Hlen call. subst call.
  unfold hailo_detect_people, hailo_detect.
  rewrite SessionFacts.detectPeople_detect, Hd. simpl.
  rewrite BoundaryFacts.copy_loop_spec; [| lia | lia]. simpl.
  rewrite Z.min_l by lia. rewrite Nat2Z.id.
  rewrite firstn_all, take_app_length'; [| by rewrite length_map].
  assert (Hcount : forall l : list hailo_wrapper.Detection,
    length (List.filter (fun c => class_id c =? 0) (map to_c_detection l))
    = length (List.filter hailo_wrapper.is_person l)).
  { induction l as [| d l IH]; simpl; [done |].
    unfold hailo_wrapper.is_person at 1. destruct (_ =? 0); simpl; by rewrite IH. }
  rewrite Hcount. unfold hailo_wrapper.count_people.
  rewrite SessionFacts.count_people_from; [done | | done |].
  - apply SessionFacts.detect_returns_parsed in Hd as (_ & _ & ->).
    apply Forall_forall. intros d Hin.
    by apply PostFacts.parseDetections_elem in Hin as [_ Hkeep].
  - pose proof (NmsFacts.filter_sublist hailo_wrapper.is_person dets) as Hs.
    apply sublist_length in Hs. lia.
Qed.

End SessionProperties.

Section CreationProperties.
Context `{!CxxImpl} `{!HailoRT} `{!HailoRTModel}.

(** X18 (creation stops at the first failure).  [create] makes its six
    HailoRT calls in a fixed order and throws at the first that fails, with
    the message of that step followed by the status; the calls after it play
    no part. *)
Theorem create_failure_modes hef_path :
  (forall status,
     vdevice_create = inl status ->
     hailo_wrapper.create hef_path
     = inl (hailo_wrapper.runtime_error
              ("Failed to create VDevice: " ++ to_string_int status))) /\
  (forall vdevice,
     vdevice_create = inr vdevice ->
     (forall status,
        create_infer_model vdevice hef_path = inl status ->
        hailo_wrapper.create hef_path
        = inl (hailo_wrapper.runtime_error
                 ("Failed to create InferModel: " ++ to_string_int status))) /\
     (forall infer_model,
        create_infer_model vdevice hef_path = inr infer_model ->
        (forall status,
           configure infer_model = inl status ->
           hailo_wrapper.create hef_path
           = inl (hailo_wrapper.runtime_error
                    ("Failed to configure model: " ++ to_string_int status))) /\
        (forall configured,
           configure infer_model = inr configured ->
           (forall status,
              create_bindings configured = inl status ->
              hailo_wrapper.create hef_path
              = inl (hailo_wrapper.runtime_error
                       ("Failed to create bindings: " ++ to_string_int status))) /\
           (forall bindings,
              create_bindings configured = inr bindings ->
              (forall status,
                 infer_model_input infer_model = inl status ->
                 hailo_wrapper.create hef_path
                 = inl (hailo_wrapper.runtime_error
                          ("Failed to get input stream: " ++ to_string_int status))) /\
              (forall input status,
                 infer_model_input infer_model = inr input ->
                 infer_model_output infer_model = inl status ->
                 hailo_wrapper.create hef_path
                 = inl (hailo_wrapper.runtime_error
                          ("Failed to get output stream: "
                             ++ to_string_int status))))))).
Proof.
  unfold hailo_wrapper.create, hailo_wrapper.or_throw. split.
  - intros status ->. done.
  - intros vdevice ->. split; [intros status ->; done |].
    intros infer_model ->. split; [intros status ->; done |].
    intros configured ->. split; [intros status ->; done |].
    intros bindings ->. split; [intros status ->; done |].
    intros input status -> ->. done.
Qed.

(** X19 (a created session).  When [create] returns a session, every
    field of it is what HailoRT reported for this model file: the geometry is
    the shape and frame size of the input stream (a dimension below 2^31 is
    kept as it is), the output size is the frame size of the output stream;
    and [detect] on that session rejects every input whose size is not the
    input stream's frame size, leaving the session as created. *)
Theorem created_session_geometry hef_path self :
  hailo_wrapper.create hef_path = inr self ->
  exists input output,
    infer_model_input (hailo_wrapper.m_infer_model self) = inr input /\
    infer_model_output (hailo_wrapper.m_infer_model self) = inr output /\
    configure (hailo_wrapper.m_infer_model self)
    = inr (hailo_wrapper.m_configured_model self) /\
    create_bindings (hailo_wrapper.m_configured_model self)
    = inr (hailo_wrapper.m_bindings self) /\
    hailo_wrapper.getInputInfo self
    = {| hailo_wrapper.width := int_of_uint32 (shape_width (shape input));
         hailo_wrapper.height := int_of_uint32 (shape_height (shape input));
         hailo_wrapper.channels := int_of_uint32 (shape_features (shape input));
         hailo_wrapper.frame_size := get_frame_size input |} /\
    (Z.of_N (shape_width (shape input)) <= int_max ->
     hailo_wrapper.width (hailo_wrapper.getInputInfo self)
     = Z.of_N (shape_width (shape input))) /\
    hailo_wrapper.m_output_size self = get_frame_size output /\
    (forall input_data input_size,
       input_size <> get_frame_size input ->
       exists msg,
         hailo_wrapper.detect input_data input_size self
         = (inl (hailo_wrapper.runtime_error msg), self)).
Proof.
  unfold hailo_wrapper.create, hailo_wrapper.or_throw.
  destruct vdevice_create as [st | vdevice]; [discriminate |].
  destruct (create_infer_model vdevice hef_path) as [st | infer_model] eqn:Hm;
    [discriminate |].
  destruct (configure infer_model) as [st | configured] eqn:Hc; [discriminate |].
  destruct (create_bindings configured) as [st | bindings] eqn:Hb; [discriminate |].
  destruct (infer_model_input infer_model) as [st | input] eqn:Hi; [discriminate |].
  destruct (infer_model_output infer_model) as [st | output] eqn:Ho; [discriminate |].
  intros [= <-]. exists input, output. simpl.
  repeat (split; [done |]). split.
  - intros Hw. unfold int_of_uint32. apply BoundaryFacts.int_wrap_small.
    unfold int_min. lia.
  - split; [done |]. intros input_data input_size Hne. eexists.
    by apply SessionFacts.detect_size_mismatch.
Qed.

(** X20 ([hailo_create] and the handle it gives).  When [create] throws,
    [hailo_create] returns the null handle and records the message; using
    that handle then replaces the message by "Invalid handle".  When [create]
    returns a session, [hailo_create] returns a handle to it, leaves
    [g_last_error] alone, and [hailo_get_input_info] on that handle reports
    the session's geometry. *)
Theorem hailo_create_and_use hef_path g_last_error :
  (forall e,
     hailo_wrapper.create hef_path = inl e ->
     hailo_create hef_path g_last_error = (None, hailo_wrapper.what e) /\
     hailo_get_input_info (fst (hailo_create hef_path g_last_error))
       (snd (hailo_create hef_path g_last_error))
     = {| returned :=
            {| width := 0; height := 0; channels := 0; frame_size := 0%N |};
          engine := None;
          last_error := "Invalid handle" |}) /\
  (forall self,
     hailo_wrapper.create hef_path = inr self ->
     hailo_create hef_path g_last_error = (Some self, g_last_error) /\
     hailo_get_input_info (fst (hailo_create hef_path g_last_error))
       (snd (hailo_create hef_path g_last_error))
     = {| returned :=
            {| width := hailo_wrapper.width (hailo_wrapper.m_input_info self);
               height := hailo_wrapper.height (hailo_wrapper.m_input_info self);
               channels := hailo_wrapper.channels (hailo_wrapper.m_input_info self);
               frame_size :=
                 hailo_wrapper.frame_size (hailo_wrapper.m_input_info self) |};
          engine := Some self;
          last_error := g_last_error |}).
Proof.
  unfold hailo_create. split.
  - intros e ->. done.
  - intros self ->. done.
Qed.

End CreationProperties.

(** ** Floats read from the buffer, and their conversion to [int] *)

Module CastFacts.
Import B32 hailo_wrapper.

Lemma digits2_pos_size p : digits2_pos p = Pos.size p.
Proof. induction p as [p IH | p IH |]; simpl; by rewrite ?IH. Qed.

Lemma digits2_pos_upper p : Zpos p < 2 ^ Zpos (digits2_pos p).
Proof.
  rewrite digits2_pos_size. pose proof (Pos.size_gt p) as H.
  apply Pos2Z.pos_lt_pos in H. by rewrite Pos2Z.inj_pow in H.
Qed.

Lemma digits2_pos_lower p : 2 ^ Zpos (digits2_pos p) <= 2 * Zpos p.
Proof.
  rewrite digits2_pos_size. pose proof (Pos.size_le p) as H.
  apply Pos2Z.pos_le_pos in H. by rewrite Pos2Z.inj_pow in H.
Qed.

Lemma digits2_pos_le p n : 0 <= n -> Zpos p < 2 ^ n -> Zpos (digits2_pos p) <= n.
Proof.
  intros Hn Hp. pose proof (digits2_pos_lower p) as Hl.
  destruct (Z.le_gt_cases (Zpos (digits2_pos p)) n) as [| Hgt]; [done |].
  assert (2 ^ (n + 1) <= 2 ^ Zpos (digits2_pos p)) by (apply Z.pow_le_mono_r; lia).
  rewrite Z.pow_add_r in * by lia. lia.
Qed.

Lemma digits2_pos_ge p n : 0 <= n -> 2 ^ n <= Zpos p -> n < Zpos (digits2_pos p).
Proof.
  intros Hn Hp. pose proof (digits2_pos_upper p) as Hu.
  destruct (Z.lt_ge_cases n (Zpos (digits2_pos p))) as [| Hge]; [done |].
  assert (2 ^ Zpos (digits2_pos p) <= 2 ^ n) by (apply Z.pow_le_mono_r; lia).
  lia.
Qed.

Lemma valid_finite_digits s m e :
  valid_binary prec emax (S754_finite s m e) = true ->
  Zpos (digits2_pos m) <= 24 /\ -149 <= e <= 104.
Proof.
  unfold valid_binary, bounded, canonical_mantissa, fexp, SpecFloat.emin, prec, emax.
  intros H. apply andb_true_iff in H as [Hc He].
  apply Z.eqb_eq in Hc. apply Z.leb_le in He. lia.
Qed.

(** A well-formed float of magnitude below 1 truncates to 0. *)
Lemma trunc_below_one a :
  valid_binary prec emax a = true ->
  lt (SFabs a) (of_Z 1) = true -> trunc a = Some 0.
Proof.
  destruct a as [s | s | | s m e]; try done.
  intros Hv Hlt. apply valid_finite_digits in Hv as [Hd He].
  pose proof (digits2_pos_upper m) as Hu.
  assert (Hm24 : Zpos m < 2 ^ 24).
  { eapply Z.lt_le_trans; [exact Hu | apply Z.pow_le_mono_r; lia]. }
  change (of_Z 1) with (S754_finite false 8388608 (-23)) in Hlt.
  unfold lt, SFltb, SFabs, SFcompare in Hlt.
  change (Pos.compare_cont Eq m 8388608) with (m ?= 8388608)%positive in Hlt.
  unfold trunc. cbv zeta.
  destruct (Z.compare_spec e (-23)) as [-> | Hlt23 | Hgt]; [| | discriminate].
  - destruct (Pos.compare_spec m 8388608) as [| Hm |]; try discriminate.
    simpl. rewrite Z.shiftr_div_pow2 by lia.
    rewrite Z.div_small by (change (2 ^ 23) with 8388608; lia).
    by destruct s.
  - destruct (0 <=? e) eqn:H0; [apply Z.leb_le in H0; lia |].
    rewrite Z.shiftr_div_pow2 by lia.
    rewrite Z.div_small.
    + by destruct s.
    + split; [lia |]. eapply Z.lt_le_trans; [exact Hm24 |].
      apply Z.pow_le_mono_r; lia.
Qed.

Lemma float_to_int_below_one `{!CxxImpl} a :
  valid_binary prec emax a = true ->
  lt (SFabs a) (of_Z 1) = true -> float_to_int a = 0.
Proof.
  intros Hv Hlt. unfold float_to_int. by rewrite (trunc_below_one a Hv Hlt).
Qed.

(** Every 32-bit word is a well-formed binary32 float. *)
Lemma lor_high m : 0 <= m < 2 ^ 23 -> Z.lor m (Z.shiftl 1 23) = m + 2 ^ 23.
Proof.
  intros Hm. rewrite Z.shiftl_1_l.
  rewrite <- Z.lxor_lor, <- Z.add_nocarry_lxor; [done | |].
  all: apply Z.bits_inj'; intros n Hn; rewrite Z.land_spec, Z.bits_0;
    rewrite Z.pow2_bits_eqb by lia;
    destruct (Z.eqb_spec 23 n) as [<- | Hne]; [| apply andb_false_r];
    rewrite andb_true_r;
    destruct (Z.eq_dec m 0) as [-> | Hm0]; [apply Z.bits_0 |];
    apply Z.bits_above_log2; [lia |]; apply Z.log2_lt_pow2; lia.
Qed.

Lemma of_bits_valid w : valid_binary prec emax (of_bits w) = true.
Proof.
  unfold of_bits. cbv zeta.
  set (e := Z.land (Z.shiftr w 23) 255). set (m := Z.land w (Z.ones 23)).
  assert (He : 0 <= e <= 255).
  { subst e. change 255 with (Z.ones 8). rewrite Z.land_ones by lia.
    change (2 ^ 8) with 256.
    pose proof (Z.mod_pos_bound (Z.shiftr w 23) 256 ltac:(lia)).
    change (Z.ones 8) with 255. lia. }
  assert (Hm : 0 <= m < 2 ^ 23).
  { subst m. rewrite Z.land_ones by lia. apply Z.mod_pos_bound. lia. }
  destruct (Z.eqb_spec e 0) as [He0 | He0].
  - destruct m as [| p | p] eqn:Hp; [done | | done].
    unfold valid_binary, bounded, canonical_mantissa, fexp, SpecFloat.emin, prec, emax.
    pose proof (digits2_pos_le p 23 ltac:(lia) ltac:(lia)).
    apply andb_true_iff. split; [apply Z.eqb_eq; lia | apply Z.leb_le; lia].
  - destruct (Z.eqb_spec e 255) as [He1 | He1]; [by destruct (m =? 0) |].
    rewrite (lor_high m Hm).
    destruct (m + 2 ^ 23) as [| p | p] eqn:Hp; [done | | done].
    unfold valid_binary, bounded, canonical_mantissa, fexp, SpecFloat.emin, prec, emax.
    assert (Hp1 : 2 ^ 23 <= Zpos p < 2 ^ 24).
    { rewrite <- Hp. change (2 ^ 24) with (2 ^ 23 + 2 ^ 23). lia. }
    pose proof (digits2_pos_le p 24 ltac:(lia) ltac:(lia)).
    pose proof (digits2_pos_ge p 23 ltac:(lia) ltac:(lia)).
    apply andb_true_iff. split; [apply Z.eqb_eq; lia | apply Z.leb_le; lia].
Qed.

Lemma float_at_valid (output : list byte) k :
  valid_binary prec emax (float_at output k) = true.
Proof. apply of_bits_valid. Qed.

End CastFacts.

(** ** The class of a record *)

Section ClassProperties.
Context `{!CxxImpl}.

(** X21 (fractional class values).  The class field is a float converted
    with [static_cast<int>], which truncates toward zero: a record whose class
    field has a magnitude below 1 (0.9, -0.5, either zero) is decoded as class
    0 and so counts as a person. *)
Theorem fractional_class_is_person (output : list byte) (i : nat) :
  B32.lt (SFabs (hailo_wrapper.float_at output (i * 6 + 5))) (B32.of_Z 1) = true ->
  hailo_wrapper.class_id (hailo_wrapper.read_detection output i) = 0 /\
  hailo_wrapper.is_person (hailo_wrapper.read_detection output i) = true.
Proof.
  intros Hlt.
  assert (Hc : hailo_wrapper.class_id (hailo_wrapper.read_detection output i) = 0).
  { unfold hailo_wrapper.read_detection, hailo_wrapper.detection_size. simpl.
    apply CastFacts.float_to_int_below_one; [apply CastFacts.float_at_valid | done]. }
  split; [exact Hc |]. unfold hailo_wrapper.is_person. by rewrite Hc.
Qed.

End ClassProperties.

(** ** The properties on the concrete implementation *)

#[local] Existing Instances Concrete.impl Concrete.device SortFacts.contract.


Lemma confidence_filter_holds_witness :
  B32.ge (hailo_wrapper.confidence Concrete.d3)
    hailo_wrapper.m_confidence_threshold = true /\
  Concrete.d_low ∉ hailo_wrapper.parseDetections Concrete.low_buffer.
Proof.
  pose proof (@confidence_filter_holds Concrete.impl Concrete.device
                SortFacts.contract) as (Hkept & Hdropped & _).
  split.
  - apply (Hkept Concrete.low_buffer).
    apply (list_elem_of_lookup_2 _ 1%nat). vm_compute. reflexivity.
  - apply Hdropped.
    + apply (list_elem_of_lookup_2 _ 1%nat). vm_compute. reflexivity.
    + vm_compute. reflexivity.
Defined.

Lemma detect_size_gate_witness :
  hailo_wrapper.detect Concrete.frame 11 (Concrete.session Concrete.example_buffer)
  = (inl (hailo_wrapper.runtime_error "Input size mismatch: expected 12, got 11"),
     Concrete.session Concrete.example_buffer).
Proof.
  refine (proj1 (detect_size_gate Concrete.frame 11
                   (Concrete.session Concrete.example_buffer) _)).
  vm_compute. discriminate.
Defined.

Lemma detectPeople_counts_class_zero_witness :
  hailo_wrapper.detectPeople Concrete.frame 12
    (Concrete.session Concrete.example_buffer)
  = (inr 1, Concrete.session Concrete.example_buffer).
Proof.
  apply (detectPeople_counts_class_zero Concrete.frame 12
           (Concrete.session Concrete.example_buffer)
           [Concrete.d1; Concrete.d3]
           (Concrete.session Concrete.example_buffer)).
  - vm_compute. reflexivity.
  - vm_compute. discriminate.
Defined.

Lemma detect_output_order_witness :
  StronglySorted
    (fun a b =>
       B32.ge (hailo_wrapper.confidence a) (hailo_wrapper.confidence b) = true)
    [Concrete.d1; Concrete.d3].
Proof.
  refine (proj2 (proj2 (proj2 detect_output_order)) Concrete.frame 12%N
            (Concrete.session Concrete.example_buffer)
            [Concrete.d1; Concrete.d3]
            (Concrete.session Concrete.example_buffer) _).
  vm_compute. reflexivity.
Defined.


Lemma nms_cross_class_pass_through_witness :
  hailo_wrapper.iou Concrete.d1 Concrete.d_twin = B32.of_Z 1 /\
  Concrete.d1 ∈ hailo_wrapper.parseDetections Concrete.overlap_buffer /\
  Concrete.d_twin ∈ hailo_wrapper.parseDetections Concrete.overlap_buffer /\
  length (hailo_wrapper.parseDetections Concrete.overlap_buffer) = 2%nat.
Proof.
  split; [vm_compute; reflexivity |].
  apply (proj1 nms_cross_class_pass_through).
  - vm_compute. reflexivity.
  - vm_compute. reflexivity.
  - vm_compute. reflexivity.
  - vm_compute. discriminate.
Defined.

Lemma deterministic_example_witness :
  hailo_wrapper.parseDetections Concrete.example_buffer
  = [Concrete.d1; Concrete.d3].
Proof.
  refine (proj1 deterministic_example Concrete.example_buffer _).
  vm_compute. reflexivity.
Defined.

Lemma hailo_detect_nonpositive_capacity_witness :
  hailo_detect (Some (Concrete.session Concrete.example_buffer)) Concrete.frame 12
    [Concrete.blank] (-3) "earlier error"
  = ({| returned := 0;
        engine := Some (Concrete.session Concrete.example_buffer);
        last_error := "earlier error" |},
     [Concrete.blank]).
Proof.
  apply (hailo_detect_nonpositive_capacity Concrete.frame 12
           (Concrete.session Concrete.example_buffer)
           [Concrete.d1; Concrete.d3]
           (Concrete.session Concrete.example_buffer)).
  - vm_compute. reflexivity.
  - vm_compute. discriminate.
Defined.

(** ** The further properties on the concrete implementation *)

Lemma trailing_bytes_ignored_witness :
  hailo_wrapper.parseDetections (Concrete.example_buffer ++ [x01; x02; x03])
  = hailo_wrapper.parseDetections Concrete.example_buffer.
Proof.
  apply trailing_bytes_ignored. vm_compute. lia.
Defined.

Lemma decoding_loop_app_witness :
  hailo_wrapper.parse_loop (Concrete.disjoint_buffer ++ Concrete.low_buffer)
  = hailo_wrapper.parse_loop Concrete.disjoint_buffer
    ++ hailo_wrapper.parse_loop Concrete.low_buffer.
Proof.
  apply (decoding_loop_app Concrete.disjoint_buffer Concrete.low_buffer 2).
  vm_compute. reflexivity.
Defined.

Lemma short_buffer_no_detections_witness :
  hailo_wrapper.parseDetections (take 23 Concrete.example_buffer) = [].
Proof.
  apply (proj1 short_buffer_no_detections). vm_compute. lia.
Defined.

Lemma output_within_decoded_witness :
  (length (hailo_wrapper.parseDetections Concrete.example_buffer) <= 3)%nat.
Proof.
  exact (proj2 (proj1 output_within_decoded Concrete.example_buffer)).
Defined.

Lemma most_confident_first_witness :
  exists d,
    hailo_wrapper.parseDetections Concrete.low_buffer !! 0%nat = Some d /\
    B32.ge (hailo_wrapper.confidence d) (hailo_wrapper.confidence Concrete.d3) = true.
Proof.
  apply (proj1 (most_confident_first Concrete.low_buffer)).
  - apply (list_elem_of_lookup_2 _ 2%nat). vm_compute. reflexivity.
  - vm_compute. reflexivity.
Defined.

Lemma dropped_only_under_a_stronger_one_witness :
  Concrete.d2 ∈ hailo_wrapper.parseDetections Concrete.example_buffer \/
  exists d,
    d ∈ hailo_wrapper.parseDetections Concrete.example_buffer /\
    hailo_wrapper.class_id d = hailo_wrapper.class_id Concrete.d2 /\
    B32.gt (hailo_wrapper.iou d Concrete.d2) hailo_wrapper.m_nms_threshold = true /\
    B32.ge (hailo_wrapper.confidence d) (hailo_wrapper.confidence Concrete.d2) = true.
Proof.
  apply dropped_only_under_a_stronger_one.
  - apply (list_elem_of_lookup_2 _ 1%nat). vm_compute. reflexivity.
  - vm_compute. reflexivity.
Defined.

Lemma distinct_classes_all_kept_witness :
  hailo_wrapper.parseDetections Concrete.overlap_buffer
  ≡ₚ List.filter hailo_wrapper.keeps (hailo_wrapper.decode Concrete.overlap_buffer).
Proof.
  apply distinct_classes_all_kept.
  apply (bool_decide_unpack _). vm_compute. exact I.
Defined.

Lemma nan_box_never_suppressed_witness :
  hailo_wrapper.has_nan Concrete.d_nan = true /\
  Concrete.d_nan ∈ hailo_wrapper.parseDetections Concrete.nan_buffer.
Proof.
  split; [reflexivity |].
  apply (proj2 nan_box_never_suppressed).
  - apply (list_elem_of_lookup_2 _ 1%nat). vm_compute. reflexivity.
  - vm_compute. reflexivity.
  - reflexivity.
Defined.

Lemma detect_failure_modes_witness :
  fst (@hailo_wrapper.detect Concrete.impl (Concrete.device_with 0 0 4 [])
         Concrete.frame 12 (Concrete.session_with 0 0 4 []))
  = inl (hailo_wrapper.runtime_error "Inference failed: 4").
Proof.
  refine (proj1 (proj2 (proj2
            (@detect_failure_modes Concrete.impl (Concrete.device_with 0 0 4 [])
               Concrete.frame 12 (Concrete.session_with 0 0 4 []) _)) _ _ _)).
  - reflexivity.
  - reflexivity.
  - reflexivity.
  - vm_compute. discriminate.
Defined.

Lemma detect_succeeds_iff_witness :
  fst (hailo_wrapper.detect Concrete.frame 12
         (Concrete.session Concrete.example_buffer))
  = inr (hailo_wrapper.parseDetections
           (hailo_wrapper.raw_output Concrete.frame 12
              (Concrete.session Concrete.example_buffer))).
Proof.
  apply (proj2 (detect_succeeds_iff Concrete.frame 12
                  (Concrete.session Concrete.example_buffer))).
  repeat split.
Defined.

Lemma hailo_detect_minus_one_iff_failure_witness :
  returned
    (fst (@hailo_detect Concrete.impl (Concrete.device_with 7 0 0 [])
            (Some (Concrete.session_with 7 0 0 [])) Concrete.frame 12
            [Concrete.blank] 1 ""))
  = -1.
Proof.
  apply (proj1 (@hailo_detect_minus_one_iff_failure Concrete.impl
                  (Concrete.device_with 7 0 0 []) Concrete.frame 12
                  (Concrete.session_with 7 0 0 []) [Concrete.blank] 1 ""%string
                  ltac:(vm_compute; discriminate))).
  eexists. vm_compute. reflexivity.
Defined.

Lemma error_message_survives_success_witness :
  let first :=
    hailo_detect (Some (Concrete.session Concrete.example_buffer))
      Concrete.frame 11 [Concrete.blank] 1 "" in
  let second :=
    hailo_detect (engine (fst first)) Concrete.frame 12 [Concrete.blank] 1
      (last_error (fst first)) in
  returned (fst first) = -1 /\
  0 <= returned (fst second) /\
  hailo_get_last_error (last_error (fst second))
  = "Input size mismatch: expected 12, got 11"%string.
Proof.
  refine (error_message_survives_success Concrete.frame 11
            (Concrete.session Concrete.example_buffer) Concrete.frame 12
            [Concrete.d1; Concrete.d3] (Concrete.session Concrete.example_buffer)
            [Concrete.blank] 1 [Concrete.blank] 1 ""%string _ _ _).
  - vm_compute. discriminate.
  - vm_compute. reflexivity.
  - vm_compute. discriminate.
Defined.

Lemma people_count_matches_detect_output_witness :
  returned
    (hailo_detect_people (Some (Concrete.session Concrete.example_buffer))
       Concrete.frame 12 "")
  = 1.
Proof.
  refine (people_count_matches_detect_output Concrete.frame 12
            (Concrete.session Concrete.example_buffer)
            [Concrete.d1; Concrete.d3] (Concrete.session Concrete.example_buffer)
            [Concrete.blank; Concrete.blank] 2 ""%string _ _ _).
  - vm_compute. reflexivity.
  - vm_compute. split; discriminate.
  - vm_compute. lia.
Defined.

Lemma create_failure_modes_witness :
  @hailo_wrapper.create Concrete.device Concrete.model_not_configured "yolov8n.hef"
  = inl (hailo_wrapper.runtime_error "Failed to configure model: 26").
Proof.
  refine (proj1 (proj2 (proj2 (@create_failure_modes Concrete.device
            Concrete.model_not_configured "yolov8n.hef"%string) tt _) tt _) 26 _);
    reflexivity.
Defined.

Lemma created_session_geometry_witness :
  hailo_wrapper.getInputInfo (Concrete.session Concrete.example_buffer)
  = {| hailo_wrapper.width := 2; hailo_wrapper.height := 2;
       hailo_wrapper.channels := 3; hailo_wrapper.frame_size := 12 |} /\
  exists msg,
    hailo_wrapper.detect Concrete.frame 11 (Concrete.session Concrete.example_buffer)
    = (inl (hailo_wrapper.runtime_error msg),
       Concrete.session Concrete.example_buffer).
Proof.
  destruct (@created_session_geometry Concrete.impl Concrete.device Concrete.model
              "yolov8n.hef"%string (Concrete.session Concrete.example_buffer) eq_refl)
    as (input & output & Hin & _ & _ & _ & Hinfo & _ & _ & Hgate).
  injection Hin as <-. split; [exact Hinfo |].
  apply Hgate. vm_compute. discriminate.
Defined.

Lemma hailo_create_and_use_witness :
  @hailo_create Concrete.device Concrete.model_not_configured
    "yolov8n.hef"%string ""%string
  = (None, "Failed to configure model: 26"%string).
Proof.
  refine (proj1 (proj1 (@hailo_create_and_use Concrete.device
            Concrete.model_not_configured "yolov8n.hef"%string ""%string)
            (hailo_wrapper.runtime_error "Failed to configure model: 26") _)).
  reflexivity.
Defined.

Lemma fractional_class_is_person_witness :
  hailo_wrapper.float_at Concrete.fraction_buffer 5 = B32.lit 9 10 /\
  hailo_wrapper.class_id (hailo_wrapper.read_detection Concrete.fraction_buffer 0) = 0 /\
  hailo_wrapper.is_person (hailo_wrapper.read_detection Concrete.fraction_buffer 0)
  = true.
Proof.
  split; [vm_compute; reflexivity |].
  apply fractional_class_is_person. vm_compute. reflexivity.
Defined.
